(** * Oscar voice notes: transcript reconciliation and text structuring

    A shallow embedding of the two algorithmic parts of the application:

    - [mergeTranscripts], defined once in [src/app/recording/page.tsx] and
      once more in the recording-button component (its text follows
      [src/lib/aiFormatter.ts] in the sources), and
    - the formatter module [src/lib/aiFormatter.ts]: [formatWithAI],
      [generateTitle], [sanitizeTitle], [formatAudioPenStyle] and the
      three local styles, and [formatBasic].

    Two smaller parts follow them: what [formatWithDeepseek] and
    [generateTitleWithDeepseek] do with an answer of the service, and
    [formatTime] of the recording page.

    JavaScript strings are sequences of UTF-16 code units; every string
    primitive the sources use ([startsWith], [includes], [endsWith],
    [slice], [trim], [split], [replace] with the regular expressions that
    occur) works on code units, so a string is modelled as a list of code
    units. *)

From Stdlib Require Import String Ascii.
From Stdlib Require Import List NArith ZArith Lia Bool DecimalN.
Import ListNotations.
Local Open Scope list_scope.

Set Implicit Arguments.

(* ================================================================== *)
(** * JavaScript string primitives                                      *)
(* ================================================================== *)

Module JS.

(** A UTF-16 code unit. *)
Definition code_unit := N.

(** A JavaScript string value. *)
Definition jsstring := list code_unit.

(** An ASCII literal of the source as a string value. *)
Definition lit (s : string) : jsstring :=
  List.map N_of_ascii (list_ascii_of_string s).

(** [a === b] on strings. *)
Fixpoint streq (a b : jsstring) : bool :=
  match a, b with
  | [], [] => true
  | x :: a', y :: b' => N.eqb x y && streq a' b'
  | _, _ => false
  end.

(** [!s] for a string [s]: only the empty string is falsy. *)
Definition falsy (s : jsstring) : bool :=
  match s with
  | [] => true
  | _ :: _ => false
  end.

(** [s.startsWith(search)]. *)
Fixpoint startsWith (s search : jsstring) {struct search} : bool :=
  match search with
  | [] => true
  | y :: search' =>
      match s with
      | [] => false
      | x :: s' => N.eqb x y && startsWith s' search'
      end
  end.

(** [s.includes(search)]: [search] occurs at some position of [s]. *)
Fixpoint includes (s search : jsstring) : bool :=
  startsWith s search ||
  match s with
  | [] => false
  | _ :: s' => includes s' search
  end.

(** The index arithmetic of [String.prototype.slice]: a negative index
    counts from the end, and every index is clamped to [0 .. len]. *)
Definition relative_index (len : nat) (i : Z) : nat :=
  if (i <? 0)%Z then Z.to_nat (Z.max (Z.of_nat len + i) 0)
  else Z.to_nat (Z.min i (Z.of_nat len)).

(** [s.slice(start, end)]. *)
Definition slice (s : jsstring) (start finish : Z) : jsstring :=
  let from := relative_index (length s) start in
  let to := relative_index (length s) finish in
  firstn (to - from) (skipn from s).

(** [s.slice(start)]: the end defaults to the length. *)
Definition slice_from (s : jsstring) (start : Z) : jsstring :=
  slice s start (Z.of_nat (length s)).

(** [s.endsWith(search)]. *)
Definition endsWith (s search : jsstring) : bool :=
  (length search <=? length s) &&
  streq (skipn (length s - length search) s) search.

(** The characters matched by [\s] in a regular expression, which are
    also the ones [trim] removes: WhiteSpace and LineTerminator. *)
Definition isWhiteSpace (c : code_unit) : bool :=
  ((9 <=? c) && (c <=? 13) || (c =? 32) || (c =? 160) || (c =? 5760) ||
   (8192 <=? c) && (c <=? 8202) || (c =? 8232) || (c =? 8233) ||
   (c =? 8239) || (c =? 8287) || (c =? 12288) || (c =? 65279))%N.

(** The longest suffix of [s] that starts at a character failing [f]. *)
Fixpoint dropWhile (f : code_unit -> bool) (s : jsstring) : jsstring :=
  match s with
  | [] => []
  | c :: s' => if f c then dropWhile f s' else s
  end.

(** [s.trimStart()], [s.trimEnd()] and [s.trim()]. *)
Definition trimStart (s : jsstring) : jsstring := dropWhile isWhiteSpace s.
Definition trimEnd (s : jsstring) : jsstring :=
  rev (dropWhile isWhiteSpace (rev s)).
Definition trim (s : jsstring) : jsstring := trimEnd (trimStart s).

(** [parts.join(sep)]. *)
Fixpoint join (sep : jsstring) (parts : list jsstring) : jsstring :=
  match parts with
  | [] => []
  | [p] => p
  | p :: rest => p ++ sep ++ join sep rest
  end.

End JS.

Import JS.

(* ================================================================== *)
(** * The transcript reconciler, [src/app/recording/page.tsx]           *)
(* ================================================================== *)

Module RecordingPage.

(** [mergeTranscripts], lines 323 to 344 of the page. The loop
    [for (let i = max; i > 0; i--)] of [mergeTranscripts]: the
    first [i], from the largest down, at which the last [i] characters of
    [previous] are the first [i] of [incoming] ends the function with
    [previous + incoming.slice(i)]; [None] when the loop runs out and the
    function goes on to its last line. *)
Fixpoint overlap_loop (previous incoming : jsstring) (i : nat)
  : option jsstring :=
  match i with
  | O => None
  | S j =>
      if streq (slice_from previous (- Z.of_nat i))
               (slice incoming 0 (Z.of_nat i))
      then Some (previous ++ slice_from incoming (Z.of_nat i))
      else overlap_loop previous incoming j
  end.

Definition mergeTranscripts (previous incoming : jsstring) : jsstring :=
  if falsy incoming then previous
  else if falsy previous then incoming
  else if startsWith incoming previous then incoming
  else if includes incoming previous then incoming
  else if includes previous incoming then previous
  else
    let max := Nat.min (length previous) (length incoming) in
    match overlap_loop previous incoming max with
    | Some merged => merged
    | None =>
        previous ++ (if endsWith previous (lit " ") then [] else lit " ")
                 ++ incoming
    end.

(** What reaches the transcript buffer [accumulatedTranscriptRef.current]:
    the effect that starts a recording stores the empty string, and the
    recogniser's callback stores the merge of the buffer with
    [transcript || '']. *)
Inductive event : Type :=
| SessionStart
| TranscriptUpdate (transcript : option jsstring).

Definition or_empty (transcript : option jsstring) : jsstring :=
  match transcript with
  | Some t => t
  | None => []
  end.

Definition step (buffer : jsstring) (e : event) : jsstring :=
  match e with
  | SessionStart => []
  | TranscriptUpdate transcript =>
      mergeTranscripts buffer (or_empty transcript)
  end.

Definition run (events : list event) (buffer : jsstring) : jsstring :=
  fold_left step events buffer.

End RecordingPage.

(* ================================================================== *)
(** * The reconciler of the recording-button component                  *)
(* ================================================================== *)

Module RecordingButton.

(** The second [mergeTranscripts], at the end of the component that
    follows the formatter in [src/lib/aiFormatter.ts], lines 513 to 528:
    the same statements without the comments. *)
Fixpoint overlap_loop (previous incoming : jsstring) (i : nat)
  : option jsstring :=
  match i with
  | O => None
  | S j =>
      if streq (slice_from previous (- Z.of_nat i))
               (slice incoming 0 (Z.of_nat i))
      then Some (previous ++ slice_from incoming (Z.of_nat i))
      else overlap_loop previous incoming j
  end.

Definition mergeTranscripts (previous incoming : jsstring) : jsstring :=
  if falsy incoming then previous
  else if falsy previous then incoming
  else if startsWith incoming previous then incoming
  else if includes incoming previous then incoming
  else if includes previous incoming then previous
  else
    let max := Nat.min (length previous) (length incoming) in
    match overlap_loop previous incoming max with
    | Some merged => merged
    | None =>
        previous ++ (if endsWith previous (lit " ") then [] else lit " ")
                 ++ incoming
    end.

End RecordingButton.

(* ================================================================== *)
(** * Promises and the remote service                                   *)
(* ================================================================== *)

Module Async.

(** How a promise settles. The reason of a rejection is only ever logged
    by the sources, so it is not recorded. *)
Inductive result (A : Type) : Type :=
| Fulfilled (value : A)
| Rejected.
Arguments Rejected {A}.

(** The two requests to the chat-completion service: the wrappers
    [formatWithDeepseek] and [generateTitleWithDeepseek] either return the
    cleaned completion text or throw (transport error, status that is not
    a success, completion field missing or empty). *)
Inductive remote_call : Type :=
| FormatWithDeepseek (rawText : jsstring)
| GenerateTitleWithDeepseek (text : jsstring).

(** An [async] function body: it settles, or it awaits the remote service
    and goes on with the outcome. *)
Inductive async (A : Type) : Type :=
| Settle (r : result A)
| Await (call : remote_call) (k : result jsstring -> async A).

Definition ret {A : Type} (a : A) : async A := Settle (Fulfilled a).

Fixpoint bind {A B : Type} (m : async A) (f : A -> async B) : async B :=
  match m with
  | Settle (Fulfilled a) => f a
  | Settle Rejected => Settle Rejected
  | Await call k => Await call (fun r => bind (k r) f)
  end.

(** [try { body } catch (e) { handler }]. *)
Fixpoint tryCatch {A : Type} (body handler : async A) : async A :=
  match body with
  | Settle (Fulfilled a) => Settle (Fulfilled a)
  | Settle Rejected => handler
  | Await call k => Await call (fun r => tryCatch (k r) handler)
  end.

(** [await] of a remote request. *)
Definition request (call : remote_call) : async jsstring :=
  Await call (fun r => Settle r).

(** Running a body against a remote service that answers each request
    with a completion or a failure, as it likes. *)
Fixpoint settle {A : Type} (remote : remote_call -> result jsstring)
  (m : async A) : result A :=
  match m with
  | Settle r => r
  | Await call k => settle remote (k (remote call))
  end.

(** The requests a body sends while it runs, in order. *)
Fixpoint requests {A : Type} (remote : remote_call -> result jsstring)
  (m : async A) : list remote_call :=
  match m with
  | Settle _ => []
  | Await call k => call :: requests remote (k (remote call))
  end.

End Async.

Import Async.

Declare Scope async_scope.
Delimit Scope async_scope with async.
Notation "'let/await' x := m 'in' k" := (bind m (fun x => k))
  (at level 10, x name, m at level 100, k at level 200) : async_scope.

(* ================================================================== *)
(** * The formatter, [src/lib/aiFormatter.ts]                           *)
(* ================================================================== *)

Module AiFormatter.

Local Open Scope N_scope.

(** ** Character classes of the regular expressions *)

(** [[,.!?]] *)
Definition isPunctuation (c : code_unit) : bool :=
  (c =? 44) || (c =? 46) || (c =? 33) || (c =? 63).

(** [[.!?]] *)
Definition isTerminator (c : code_unit) : bool :=
  (c =? 46) || (c =? 33) || (c =? 63).

(** [[\r\n]] *)
Definition isLineBreak (c : code_unit) : bool :=
  (c =? 13) || (c =? 10).

(** The class of a double quote, a single quote or [\s], of
    [sanitizeTitle]. *)
Definition isQuoteOrSpace (c : code_unit) : bool :=
  (c =? 34) || (c =? 39) || isWhiteSpace c.

(** The class of [-], the bullet U+2022 and [*], of [formatListStyle]. *)
Definition isListMarker (c : code_unit) : bool :=
  (c =? 45) || (c =? 8226) || (c =? 42).

(** The canonical form by which a regular expression with the [i] flag
    (and no [u] flag) compares characters. It is the upper-case mapping,
    except that a character outside ASCII is never mapped into ASCII.
    Every pattern of this module is ASCII, so only whether a character is
    canonically an ASCII one matters, and characters outside ASCII are
    left as they are. *)
Definition canonicalize (c : code_unit) : code_unit :=
  if (97 <=? c) && (c <=? 122) then c - 32 else c.

Local Close Scope N_scope.

(** ** Regular-expression operations, one per shape of pattern *)

(** The head of [s] satisfies [f]. *)
Definition headIs (f : code_unit -> bool) (s : jsstring) : bool :=
  match s with
  | [] => false
  | c :: _ => f c
  end.

(** The longest prefix of [s] whose characters satisfy [f]. *)
Fixpoint takeWhile (f : code_unit -> bool) (s : jsstring) : jsstring :=
  match s with
  | [] => []
  | c :: s' => if f c then c :: takeWhile f s' else []
  end.

(** [s.replace(/[class]+/g, by)]: every maximal run of characters of the
    class becomes [by]; [inside] tells that the previous character was in
    the class, so that the run has been replaced already. *)
Fixpoint replaceRuns_from (f : code_unit -> bool) (by_ : jsstring)
  (inside : bool) (s : jsstring) : jsstring :=
  match s with
  | [] => []
  | c :: s' =>
      if f c
      then (if inside then [] else by_) ++ replaceRuns_from f by_ true s'
      else c :: replaceRuns_from f by_ false s'
  end.

Definition replaceRuns (f : code_unit -> bool) (by_ s : jsstring)
  : jsstring :=
  replaceRuns_from f by_ false s.

(** [s.replace(/\s+([,.!?])/g, '$1')]: a run of white space is matched
    only as a whole and only when a punctuation mark follows it; then the
    run goes and the mark stays. *)
Fixpoint removeSpaceBeforePunctuation (s : jsstring) : jsstring :=
  match s with
  | [] => []
  | c :: s' =>
      if isWhiteSpace c && headIs isPunctuation (dropWhile isWhiteSpace s')
      then removeSpaceBeforePunctuation s'
      else c :: removeSpaceBeforePunctuation s'
  end.

(** [s.replace(/([,.!?])([^\s])/g, '$1 $2')]: matches are found from left
    to right and do not overlap, so the character after a matched mark is
    consumed with it and starts no match of its own. *)
Fixpoint addSpaceAfterPunctuation (s : jsstring) : jsstring :=
  match s with
  | [] => []
  | c :: s' =>
      match s' with
      | [] => [c]
      | d :: s'' =>
          if isPunctuation c && negb (isWhiteSpace d)
          then c :: 32%N :: d :: addSpaceAfterPunctuation s''
          else c :: addSpaceAfterPunctuation s'
      end
  end.

(** [s.replace(/^[class]+|[class]+$/g, '')]: the run of class characters
    at the start and the one at the end are removed. *)
Definition stripEnds (f : code_unit -> bool) (s : jsstring) : jsstring :=
  rev (dropWhile f (rev (dropWhile f s))).

(** [(s.match(/[^.!?]+[.!?]?/) || [''])[0]]: the first run of characters
    other than terminators, with the terminator after it when there is
    one; the empty string when [s] has no such run. *)
Definition firstSentenceMatch (s : jsstring) : jsstring :=
  let fromRun := dropWhile isTerminator s in
  let run := takeWhile (fun c => negb (isTerminator c)) fromRun in
  run ++ firstn 1 (dropWhile (fun c => negb (isTerminator c)) fromRun).

(** [s.split(/(?<=[.!?])\s+/)]: a separator is a whole run of white space
    right after a terminator. [piece] is the piece being read, [afterEnd]
    tells that its last character is a terminator, [inSeparator] that a
    separator is being skipped. *)
Fixpoint splitSentences_from (piece : jsstring)
  (afterEnd inSeparator : bool) (s : jsstring) : list jsstring :=
  match s with
  | [] => [piece]
  | c :: s' =>
      if isWhiteSpace c
      then if inSeparator then splitSentences_from [] false true s'
           else if afterEnd then piece :: splitSentences_from [] false true s'
           else splitSentences_from (piece ++ [c]) false false s'
      else splitSentences_from (piece ++ [c]) (isTerminator c) false s'
  end.

Definition splitSentences (s : jsstring) : list jsstring :=
  splitSentences_from [] false false s.

(** [s.split(/[.!?]+/)]: a separator is a whole run of terminators. *)
Fixpoint splitOnTerminators_from (piece : jsstring) (inSeparator : bool)
  (s : jsstring) : list jsstring :=
  match s with
  | [] => [piece]
  | c :: s' =>
      if isTerminator c
      then if inSeparator then splitOnTerminators_from [] true s'
           else piece :: splitOnTerminators_from [] true s'
      else splitOnTerminators_from (piece ++ [c]) false s'
  end.

Definition splitOnTerminators (s : jsstring) : list jsstring :=
  splitOnTerminators_from [] false s.

(** [/w1|w2|.../i.test(s)] for ASCII words: some word occurs in [s], up
    to the case of ASCII letters. *)
Definition testAnyWord (words : list string) (s : jsstring) : bool :=
  existsb
    (fun w => includes (List.map canonicalize s)
                       (List.map canonicalize (lit w)))
    words.

(** [s.replace(/^(w1|w2|...)\s+/i, '')]: the first word of the list that
    starts [s] (up to case) and has white space after it is removed with
    the white space that follows. *)
Fixpoint removeLeadingWord (words : list string) (s : jsstring)
  : jsstring :=
  match words with
  | [] => s
  | w :: words' =>
      let rest := skipn (length (lit w)) s in
      if startsWith (List.map canonicalize s)
                    (List.map canonicalize (lit w))
         && headIs isWhiteSpace rest
      then dropWhile isWhiteSpace rest
      else removeLeadingWord words' s
  end.

(** [s.replace(/^[class]\s*/, '')] for the class of list markers. *)
Definition removeListMarker (s : jsstring) : jsstring :=
  match s with
  | [] => []
  | c :: s' => if isListMarker c then dropWhile isWhiteSpace s' else s
  end.

(** ** Titles, lines 21 to 35 and 172 to 177 *)

Definition sanitizeTitle (title : jsstring) : jsstring :=
  trim (stripEnds isQuoteOrSpace
          (replaceRuns isLineBreak (lit " ") title)).

Definition generateTitleWithDeepseek (text : jsstring) : async jsstring :=
  request (GenerateTitleWithDeepseek text).

(** The [catch] block of [generateTitle]. *)
Definition fallbackTitle (source : jsstring) : jsstring :=
  let cleaned := trim (replaceRuns isWhiteSpace (lit " ") source) in
  let firstSentence := trim (firstSentenceMatch cleaned) in
  let truncated :=
    if 60 <? length firstSentence
    then trim (slice firstSentence 0 57) ++ [8230%N]
    else firstSentence in
  sanitizeTitle (if falsy truncated then slice cleaned 0 60 else truncated).

Definition generateTitle (text : jsstring) : async jsstring :=
  let source := trim text in
  if falsy source then ret []
  else
    tryCatch
      (let/await title := generateTitleWithDeepseek source in
       ret (sanitizeTitle title))%async
      (ret (fallbackTitle source)).

(** ** The last-resort formatting, lines 316 to 323 *)

(** The template [`(bullet) ${s}`]: the bullet U+2022, a space, then [s]. *)
Definition bullet (s : jsstring) : jsstring := [8226%N; 32%N] ++ s.

Definition newline : jsstring := [10%N].

Definition formatBasic (text : jsstring) : jsstring :=
  join newline
    (List.map (fun s => bullet (trim s))
       (filter (fun s => 0 <? length (trim s))
          (splitOnTerminators text))).

(** ** The local styles, lines 180 to 314 *)

Definition meetingWords : list string :=
  ["meeting"; "discuss"; "agenda"; "action"; "follow-up"; "team";
   "project"]%string.

Definition listWords : list string :=
  ["first"; "second"; "third"; "then"; "next"; "also"; "additionally";
   "finally"; "pehle"; "phir"; "baad"; "uske"]%string.

Definition actionWords : list string :=
  ["need to"; "should"; "must"; "will"; "going to"; "plan to"; "karna";
   "hoga"; "chahiye"]%string.

Definition actionItemWords : list string :=
  ["need to"; "should"; "must"; "will"; "going to"; "plan to"; "action";
   "task"; "todo"; "karna"; "hoga"; "chahiye"]%string.

Definition discussionWords : list string :=
  ["discuss"; "talk"; "review"; "decide"; "decided"; "agreed"; "baat";
   "charcha"]%string.

Definition pronouns : list string :=
  ["I"; "we"; "they"; "you"; "main"; "hum"]%string.

Definition transitionWords : list string :=
  ["however"; "but"; "also"; "additionally"; "furthermore"; "meanwhile";
   "next"; "then"; "now"; "lekin"; "par"; "aur"; "phir"]%string.

(** The four arrays that [formatMeetingStyle] fills. *)
Record buckets : Type := {
  actionItems : list jsstring;
  discussion : list jsstring;
  questions : list jsstring;
  other : list jsstring
}.

Definition noBuckets : buckets :=
  {| actionItems := []; discussion := []; questions := []; other := [] |}.

(** [items.forEach(item => { result += f(item) })]. *)
Definition appendEach (f : jsstring -> jsstring) (items : list jsstring)
  (result : jsstring) : jsstring :=
  fold_left (fun acc item => acc ++ f item) items result.

Definition formatListStyle (sentences : list jsstring) : jsstring :=
  join newline
    (List.map (fun s => bullet (trim (removeListMarker s))) sentences).

Section Host.

(** [String.prototype.toLowerCase] follows the case tables of Unicode,
    which belong to the host and not to these sources. *)
Variable toLowerCase : jsstring -> jsstring.

Definition isTopicChange (sentence1 sentence2 : jsstring) : bool :=
  let lower2 := toLowerCase sentence2 in
  existsb (fun word => startsWith lower2 (lit word)) transitionWords.

(** The loop of [formatNaturalStyle] over the sentences that remain, the
    first of them being [sentences[i]]. *)
Fixpoint formatNaturalStyle_loop (sentences : list jsstring)
  (result : jsstring) (currentParagraph : list jsstring) : jsstring :=
  match sentences with
  | [] => result
  | sentence :: rest =>
      let currentParagraph := currentParagraph ++ [sentence] in
      let shouldBreak :=
        (4 <=? length currentParagraph) ||
        match rest with
        | [] => false
        | next :: _ => isTopicChange sentence next
        end in
      let isLast := match rest with [] => true | _ :: _ => false end in
      if shouldBreak || isLast
      then formatNaturalStyle_loop rest
             (result ++ join (lit " ") currentParagraph ++ newline ++ newline)
             []
      else formatNaturalStyle_loop rest result currentParagraph
  end.

Definition formatNaturalStyle (sentences : list jsstring) : jsstring :=
  trim (formatNaturalStyle_loop sentences [] []).

(** The body of [sentences.forEach] in [formatMeetingStyle]. *)
Definition classify (b : buckets) (sentence : jsstring) : buckets :=
  let lower := toLowerCase sentence in
  if existsb (N.eqb 63) sentence then
    {| actionItems := actionItems b; discussion := discussion b;
       questions := questions b ++ [sentence]; other := other b |}
  else if testAnyWord actionItemWords lower then
    {| actionItems :=
         actionItems b ++ [removeLeadingWord pronouns sentence];
       discussion := discussion b;
       questions := questions b; other := other b |}
  else if testAnyWord discussionWords lower then
    {| actionItems := actionItems b;
       discussion := discussion b ++ [sentence];
       questions := questions b; other := other b |}
  else
    {| actionItems := actionItems b; discussion := discussion b;
       questions := questions b; other := other b ++ [sentence] |}.

(** One labelled section: nothing for an empty array, else the heading,
    the items and, for the bulleted sections, a closing empty line. *)
Definition appendSection (heading : string) (items : list jsstring)
  (item : jsstring -> jsstring) (closing : jsstring) (result : jsstring)
  : jsstring :=
  if 0 <? length items
  then appendEach item items (result ++ lit heading ++ newline ++ newline)
       ++ closing
  else result.

Definition bulletLine (s : jsstring) : jsstring := bullet s ++ newline.

Definition noteLine (s : jsstring) : jsstring := s ++ newline ++ newline.

(** The text assembled by [formatMeetingStyle] before the final [trim]. *)
Definition meetingSections (b : buckets) : jsstring :=
  let result := [] in
  let result :=
    appendSection "Key Discussion Points:" (discussion b) bulletLine newline
      result in
  let result :=
    appendSection "Action Items:" (actionItems b) bulletLine newline result in
  let result :=
    appendSection "Questions:" (questions b) bulletLine newline result in
  appendSection "Notes:" (other b) noteLine [] result.

Definition formatMeetingStyle (sentences : list jsstring) : jsstring :=
  let b := fold_left classify sentences noBuckets in
  let result := trim (meetingSections b) in
  if falsy result then join (lit " ") sentences else result.

(** The clean-up at the start of [formatAudioPenStyle]. *)
Definition cleanUp (text : jsstring) : jsstring :=
  trim (addSpaceAfterPunctuation
          (removeSpaceBeforePunctuation
             (replaceRuns isWhiteSpace (lit " ") text))).

(** [formatAudioPenStyle]; its constant [hasQuestions] is read nowhere
    and is left out. *)
Definition formatAudioPenStyle (text : jsstring) : async jsstring :=
  if falsy text || falsy (trim text) then ret text
  else
    let cleaned := cleanUp text in
    let sentences :=
      filter (fun s => 0 <? length s)
        (List.map trim (splitSentences cleaned)) in
    if length sentences =? 0 then ret cleaned
    else
      let isMeeting := testAnyWord meetingWords cleaned in
      let isList := testAnyWord listWords cleaned in
      let hasActionItems := testAnyWord actionWords cleaned in
      if isMeeting && (hasActionItems || isList)
      then ret (formatMeetingStyle sentences)
      else if isList || (5 <? length sentences)
      then ret (formatListStyle sentences)
      else ret (formatNaturalStyle sentences).

(** ** The entry point, lines 4 to 18 *)

Definition formatWithDeepseek (rawText : jsstring) : async jsstring :=
  request (FormatWithDeepseek rawText).

(** [formatWithAI] with its middle tier left open, to tell what the
    inner [catch] does with a middle tier that throws. *)
Definition formatWithAI_over (heuristic : jsstring -> async jsstring)
  (rawText : jsstring) : async jsstring :=
  tryCatch
    (let/await formatted := formatWithDeepseek rawText in
     ret formatted)%async
    (tryCatch (heuristic rawText) (ret (formatBasic rawText))).

Definition formatWithAI (rawText : jsstring) : async jsstring :=
  formatWithAI_over formatAudioPenStyle rawText.

End Host.

(** ASCII letters to lower case, which is what [toLowerCase] does to a
    string of ASCII characters. *)
Definition asciiLower (c : code_unit) : code_unit :=
  if ((65 <=? c) && (c <=? 90))%N then (c + 32)%N else c.

Definition isAscii (c : code_unit) : bool := (c <? 128)%N.

End AiFormatter.

Import AiFormatter.

(* ================================================================== *)
(** * The wrappers of the remote service, lines 38 to 170               *)
(* ================================================================== *)

Module Deepseek.

(** What a wrapper gets from [fetch] and [response.json()].
    [TransportError] is a [fetch] that rejects or a body that is not
    JSON. In [Answer ok content], [ok] is [response.ok], and [content]
    is [Some c] when the body has a string [c] at
    [choices[0].message.content]; every other body is [None]. Both
    wrappers throw on [None]: [formatWithDeepseek] by its [else] branch
    or by calling [trim] on what is no string, and
    [generateTitleWithDeepseek] by the empty default of its optional
    chain or in the same way. *)
Inductive fetched : Type :=
| TransportError
| Answer (ok : bool) (content : option jsstring).

(** The class [\w]. *)
Definition isWordChar (c : code_unit) : bool :=
  ((48 <=? c) && (c <=? 57) || (65 <=? c) && (c <=? 90)
   || (97 <=? c) && (c <=? 122) || (c =? 95))%N.

(** Three backquotes. *)
Definition fence : jsstring := lit "```".

(** [s.replace(/^```[\w]*\n/, '')]: the pattern is anchored at the start
    of the string, and the word characters it takes are followed by a
    line feed or the match fails. *)
Definition removeOpeningFence (s : jsstring) : jsstring :=
  if startsWith s fence
  then match dropWhile isWordChar (skipn 3 s) with
       | c :: rest => if (c =? 10)%N then rest else s
       | [] => s
       end
  else s.

(** [s.replace(/\n```$/, '')]: without the flag [m], [$] is the end of
    the string. *)
Definition removeClosingFence (s : jsstring) : jsstring :=
  if endsWith s (newline ++ fence) then firstn (length s - 4) s else s.

Definition stripFences (s : jsstring) : jsstring :=
  trim (removeClosingFence (removeOpeningFence s)).

(** [formatWithDeepseek], lines 104 to 128, from the answer on. *)
Definition formatWithDeepseek_outcome (f : fetched) : result jsstring :=
  match f with
  | TransportError => Rejected
  | Answer false _ => Rejected
  | Answer true None => Rejected
  | Answer true (Some content) =>
      let formattedText := trim content in
      Fulfilled (stripFences formattedText)
  end.

(** [generateTitleWithDeepseek], lines 161 to 169, from the answer on. *)
Definition generateTitleWithDeepseek_outcome (f : fetched)
  : result jsstring :=
  match f with
  | TransportError => Rejected
  | Answer false _ => Rejected
  | Answer true None => Rejected
  | Answer true (Some text) =>
      let content := trim text in
      if falsy content then Rejected else Fulfilled (stripFences content)
  end.

(** The remote service as the two wrappers make it from the network. *)
Definition remoteOver (network : remote_call -> fetched)
  (call : remote_call) : result jsstring :=
  match call with
  | FormatWithDeepseek _ => formatWithDeepseek_outcome (network call)
  | GenerateTitleWithDeepseek _ =>
      generateTitleWithDeepseek_outcome (network call)
  end.

End Deepseek.

Import Deepseek.

(* ================================================================== *)
(** * The clock of the recording page, lines 120 to 124                 *)
(* ================================================================== *)

Module RecordingClock.

(** The largest count the page's counter of seconds holds exactly,
    [Number.MAX_SAFE_INTEGER]. *)
Definition maxSafeInteger : N := 9007199254740991.

Fixpoint digits (u : Decimal.uint) : jsstring :=
  match u with
  | Decimal.Nil => []
  | Decimal.D0 u => 48%N :: digits u
  | Decimal.D1 u => 49%N :: digits u
  | Decimal.D2 u => 50%N :: digits u
  | Decimal.D3 u => 51%N :: digits u
  | Decimal.D4 u => 52%N :: digits u
  | Decimal.D5 u => 53%N :: digits u
  | Decimal.D6 u => 54%N :: digits u
  | Decimal.D7 u => 55%N :: digits u
  | Decimal.D8 u => 56%N :: digits u
  | Decimal.D9 u => 57%N :: digits u
  end.

(** [Number.prototype.toString] on a whole number that is not negative
    and not above [maxSafeInteger]: its decimal digits. *)
Definition toString (n : N) : jsstring := digits (N.to_uint n).

(** [s.padStart(targetLength, fill)] for a filler of one code unit. *)
Definition padStart (targetLength : nat) (fill : code_unit) (s : jsstring)
  : jsstring :=
  repeat fill (targetLength - length s) ++ s.

(** [formatTime], for the counts of seconds the page calls it with:
    the counter starts at zero and goes up by one. *)
Definition formatTime (seconds : N) : jsstring :=
  let mins := (seconds / 60)%N in
  let secs := (seconds mod 60)%N in
  padStart 2 48%N (toString mins) ++ lit ":"
  ++ padStart 2 48%N (toString secs).

End RecordingClock.

Import RecordingClock.

(* ================================================================== *)
(** * Vocabulary of the statements                                      *)
(* ================================================================== *)

(** [t] occurs in [s] as a run of consecutive characters. *)
Definition occurs_in (t s : jsstring) : Prop :=
  exists before after, s = before ++ t ++ after.

(** [t] is what [s] starts with. *)
Definition starts (t s : jsstring) : Prop := exists after, s = t ++ after.

(** [t] is what [s] ends with. *)
Definition ends (t s : jsstring) : Prop := exists before, s = before ++ t.

(** The last [k] characters of [previous] are the first [k] characters of
    [incoming], for a [k] of at least one. *)
Definition overlap (k : nat) (previous incoming : jsstring) : Prop :=
  1 <= k /\ k <= length previous /\ k <= length incoming /\
  skipn (length previous - k) previous = firstn k incoming.

(** The separator of the last line of [mergeTranscripts]. *)
Definition separator (previous : jsstring) : jsstring :=
  if endsWith previous (lit " ") then [] else lit " ".

(** A text that ends with a tab. *)
Definition fooTab : jsstring := lit "foo" ++ [9%N].

(** [s] ends with a character of the white space class. *)
Definition endsWithWhiteSpace (s : jsstring) : bool :=
  headIs isWhiteSpace (rev s).

(** The branches of [mergeTranscripts], each with the condition under
    which it is taken. *)
Inductive merge_branch (p i : jsstring) : jsstring -> Prop :=
| merge_empty_incoming :
    i = [] -> merge_branch p i p
| merge_empty_previous :
    i <> [] -> p = [] -> merge_branch p i i
| merge_superset :
    i <> [] -> p <> [] -> occurs_in p i -> merge_branch p i i
| merge_contained :
    i <> [] -> p <> [] -> ~ occurs_in p i -> occurs_in i p ->
    merge_branch p i p
| merge_overlap k :
    i <> [] -> p <> [] -> ~ occurs_in p i -> ~ occurs_in i p ->
    overlap k p i -> (forall k', overlap k' p i -> k' <= k) ->
    merge_branch p i (p ++ skipn k i)
| merge_append :
    i <> [] -> p <> [] -> ~ occurs_in p i -> ~ occurs_in i p ->
    (forall k, ~ overlap k p i) ->
    merge_branch p i (p ++ separator p ++ i).

(** Every white-space character of [s] is a space, and no two of them
    are next to each other. *)
Fixpoint single_spaced (s : jsstring) : Prop :=
  match s with
  | [] => True
  | c :: s' =>
      (isWhiteSpace c = true -> c = 32%N /\ headIs isWhiteSpace s' = false)
      /\ single_spaced s'
  end.

(** No white-space character of [s] stands right before a punctuation
    mark. *)
Fixpoint no_space_before_punctuation (s : jsstring) : Prop :=
  match s with
  | [] => True
  | c :: s' =>
      (isWhiteSpace c = true -> headIs isPunctuation s' = false)
      /\ no_space_before_punctuation s'
  end.

(** The text of [s] up to its first terminator, the terminator
    included: what the specification calls the first sentence. *)
Definition upToFirstTerminator (s : jsstring) : jsstring :=
  takeWhile (fun c => negb (isTerminator c)) s
  ++ firstn 1 (dropWhile (fun c => negb (isTerminator c)) s).

(** The same with the terminator left out. *)
Definition beforeFirstTerminator (s : jsstring) : jsstring :=
  takeWhile (fun c => negb (isTerminator c)) s.

(** The title made of a first sentence: the sentence, or its first 57
    characters, trimmed, and an ellipsis when it has more than 60; then
    sanitised. *)
Definition titleOfSentence (sentence : jsstring) : jsstring :=
  sanitizeTitle
    (if 60 <? length sentence
     then trim (firstn 57 sentence) ++ [8230%N]
     else sentence).

(** The text that [generateTitle] collapses [source] to. *)
Definition collapsed (source : jsstring) : jsstring :=
  trim (replaceRuns isWhiteSpace (lit " ") source).

(** The four kinds of sentence of the meeting style. *)
Inductive bucket : Type := Question | ActionItem | DiscussionPoint | Note.

Definition bucket_eqb (a b : bucket) : bool :=
  match a, b with
  | Question, Question | ActionItem, ActionItem
  | DiscussionPoint, DiscussionPoint | Note, Note => true
  | _, _ => false
  end.

(** The kind of a sentence, the tests taken in the order of priority. *)
Definition bucketOf (toLowerCase : jsstring -> jsstring)
  (sentence : jsstring) : bucket :=
  if existsb (N.eqb 63) sentence then Question
  else if testAnyWord actionItemWords (toLowerCase sentence) then ActionItem
  else if testAnyWord discussionWords (toLowerCase sentence)
       then DiscussionPoint
       else Note.

Definition inBucket (toLowerCase : jsstring -> jsstring) (b : bucket)
  (sentence : jsstring) : bool :=
  bucket_eqb (bucketOf toLowerCase sentence) b.

(** A labelled section: nothing when there are no items, else the
    heading, an empty line, the items one after the other and the
    closing text. *)
Definition labelled (heading : string) (item : jsstring -> jsstring)
  (closing : jsstring) (items : list jsstring) : jsstring :=
  match items with
  | [] => []
  | _ :: _ =>
      lit heading ++ newline ++ newline ++ concat (List.map item items)
      ++ closing
  end.

(** What is known of the host's [toLowerCase]: on a string of ASCII
    characters it lowers the ASCII letters and nothing else. *)
Definition lowersAscii (toLowerCase : jsstring -> jsstring) : Prop :=
  forall s, forallb isAscii s = true ->
            toLowerCase s = List.map asciiLower s.

(** The raw text of the title example of the specification. *)
Definition fridayNote : jsstring :=
  lit "um so basically we need to ship this by Friday. "
  ++ lit "Then we celebrate.".

(** The three sentences of the meeting example of the specification, and
    a text that is split into them. *)
Definition budgetSentence : jsstring := lit "We discussed the budget.".
Definition reportSentence : jsstring :=
  lit "We need to finalize the report by Friday.".
Definition deadlineSentence : jsstring := lit "Is the deadline fixed?".
Definition meetingNote : jsstring :=
  budgetSentence ++ lit " " ++ reportSentence ++ lit " "
  ++ deadlineSentence.

(** A remote service that fails every request. *)
Definition rejecting (call : remote_call) : result jsstring := Rejected.

(** ** The meeting style in the words of its description *)

(** [s] contains [phrase], the case of ASCII letters apart. *)
Definition containsIgnoringCase (s : jsstring) (phrase : string) : bool :=
  includes (List.map asciiLower s) (List.map asciiLower (lit phrase)).

(** The phrases of intent or task, and those of discussion. *)
Definition intentPhrases : list string :=
  ["need to"; "should"; "must"; "will"; "going to"; "plan to"; "action";
   "task"; "todo"; "karna"; "hoga"; "chahiye"]%string.

Definition discussionPhrases : list string :=
  ["discuss"; "talk"; "review"; "decide"; "decided"; "agreed"; "baat";
   "charcha"]%string.

(** The kind of a sentence: the first of the three tests that holds, the
    phrases being looked for in the lower-cased sentence. *)
Definition kindOf (toLowerCase : jsstring -> jsstring)
  (sentence : jsstring) : bucket :=
  if includes sentence (lit "?") then Question
  else if existsb (containsIgnoringCase (toLowerCase sentence))
            intentPhrases
  then ActionItem
  else if existsb (containsIgnoringCase (toLowerCase sentence))
            discussionPhrases
  then DiscussionPoint
  else Note.

(** The sentences of one kind, in their order. *)
Definition ofKind (toLowerCase : jsstring -> jsstring) (kind : bucket)
  (sentences : list jsstring) : list jsstring :=
  filter (fun s => bucket_eqb (kindOf toLowerCase s) kind) sentences.

(** [s] starts with [word], the case of ASCII letters apart, and white
    space follows the word. *)
Definition startsWithWord (s : jsstring) (word : string) : bool :=
  startsWith (List.map asciiLower s) (List.map asciiLower (lit word))
  && headIs isWhiteSpace (skipn (length (lit word)) s).

Definition leadingPronouns : list string :=
  ["I"; "we"; "they"; "you"; "main"; "hum"]%string.

(** A sentence without the pronoun it starts with and the white space
    after the pronoun. *)
Definition withoutLeadingPronoun (s : jsstring) : jsstring :=
  match find (startsWithWord s) leadingPronouns with
  | Some word => dropWhile isWhiteSpace (skipn (length (lit word)) s)
  | None => s
  end.

(** An entry of a bulleted section: the bullet U+2022, a space, the
    sentence, a line feed. An entry of the notes: the sentence and an
    empty line. *)
Definition bulletEntry (s : jsstring) : jsstring :=
  [8226%N; 32%N] ++ s ++ [10%N].

Definition noteEntry (s : jsstring) : jsstring := s ++ [10%N; 10%N].

(** A section: nothing when it has no entry, else its heading, an empty
    line, its entries and its closing text. *)
Definition sectionOf (heading : string) (entry : jsstring -> jsstring)
  (closing : jsstring) (items : list jsstring) : jsstring :=
  match items with
  | [] => []
  | _ :: _ =>
      lit heading ++ [10%N; 10%N] ++ concat (List.map entry items)
      ++ closing
  end.

(** The text of the meeting style for the four kinds of sentence. *)
Definition meetingText (discussionPoints actions questionsAsked notes
  : list jsstring) : jsstring :=
  trim (sectionOf "Key Discussion Points:" bulletEntry [10%N]
          discussionPoints
        ++ sectionOf "Action Items:" bulletEntry [10%N] actions
        ++ sectionOf "Questions:" bulletEntry [10%N] questionsAsked
        ++ sectionOf "Notes:" noteEntry [] notes).

(** A sentence with the word agree, and a closing remark. *)
Definition agreeSentence : jsstring := lit "We agree on the budget.".
Definition thanksSentence : jsstring := lit "Thanks everyone.".

(** ** Vocabulary of the further properties *)

(** What one update can add to the buffer: its text and a separator. *)
Definition updateCost (update : option jsstring) : nat :=
  length (RecordingPage.or_empty update) + 1.

(** The characters of a text that are not white space, in their order. *)
Definition visible (s : jsstring) : jsstring :=
  filter (fun c => negb (isWhiteSpace c)) s.

(** The sentences [formatAudioPenStyle] works on, lines 186 to 187. *)
Definition sentencesOf (cleaned : jsstring) : list jsstring :=
  filter (fun s => 0 <? length s) (List.map trim (splitSentences cleaned)).

(** No white space at either end. *)
Definition trimmed (s : jsstring) : Prop :=
  headIs isWhiteSpace s = false /\ headIs isWhiteSpace (rev s) = false.

Definition endsSentence (s : jsstring) : Prop :=
  headIs isTerminator (rev s) = true.

(** The three local styles, and the one the tests of lines 191 to 215
    select for a cleaned text. *)
Inductive style : Type := MeetingStyle | ListStyle | NaturalStyle.

Definition styleOf (cleaned : jsstring) : style :=
  if testAnyWord meetingWords cleaned
     && (testAnyWord actionWords cleaned || testAnyWord listWords cleaned)
  then MeetingStyle
  else if testAnyWord listWords cleaned
          || (5 <? length (sentencesOf cleaned))
       then ListStyle
       else NaturalStyle.

(** A paragraph of the natural style, as it is written. *)
Definition paragraph (sentences : list jsstring) : jsstring :=
  join (lit " ") sentences ++ newline ++ newline.

Fixpoint noTopicChangeInside (toLowerCase : jsstring -> jsstring)
  (g : list jsstring) : Prop :=
  match g with
  | a :: (b :: _) as rest =>
      isTopicChange toLowerCase a b = false
      /\ noTopicChangeInside toLowerCase rest
  | _ => True
  end.

(** Every group but the last is full, or is followed by a change of
    topic. *)
Fixpoint breaksJustified (toLowerCase : jsstring -> jsstring)
  (groups : list (list jsstring)) : Prop :=
  match groups with
  | g :: (h :: _) as rest =>
      (length g = 4
       \/ isTopicChange toLowerCase (last g []) (hd [] h) = true)
      /\ breaksJustified toLowerCase rest
  | _ => True
  end.

(** A line of the list style. *)
Definition listLine (sentence : jsstring) : jsstring :=
  bullet (trim (removeListMarker sentence)).

(** The lines of a text: what is between its line feeds. *)
Fixpoint splitLines_from (line s : jsstring) : list jsstring :=
  match s with
  | [] => [line]
  | c :: s' =>
      if (c =? 10)%N then line :: splitLines_from [] s'
      else splitLines_from (line ++ [c]) s'
  end.

Definition splitLines (s : jsstring) : list jsstring :=
  splitLines_from [] s.

Definition noLineFeed (s : jsstring) : Prop :=
  Forall (fun c => (c =? 10)%N = false) s.

Definition onlySpaceAndTerminators (s : jsstring) : Prop :=
  Forall (fun c => isWhiteSpace c || isTerminator c = true) s.

(** An answer of the service that is wrapped in a code fence. *)
Definition fenced (language body : jsstring) : jsstring :=
  fence ++ language ++ newline ++ body ++ newline ++ fence.

(** Reading a clock text back. *)
Fixpoint readDigits (s : jsstring) : option Decimal.uint :=
  match s with
  | [] => Some Decimal.Nil
  | c :: s' =>
      match readDigits s' with
      | None => None
      | Some u =>
          if (c =? 48)%N then Some (Decimal.D0 u)
          else if (c =? 49)%N then Some (Decimal.D1 u)
          else if (c =? 50)%N then Some (Decimal.D2 u)
          else if (c =? 51)%N then Some (Decimal.D3 u)
          else if (c =? 52)%N then Some (Decimal.D4 u)
          else if (c =? 53)%N then Some (Decimal.D5 u)
          else if (c =? 54)%N then Some (Decimal.D6 u)
          else if (c =? 55)%N then Some (Decimal.D7 u)
          else if (c =? 56)%N then Some (Decimal.D8 u)
          else if (c =? 57)%N then Some (Decimal.D9 u)
          else None
      end
  end.

Definition readNumber (s : jsstring) : option N :=
  match s with
  | [] => None
  | _ :: _ => option_map N.of_uint (readDigits s)
  end.

Definition isColon (c : code_unit) : bool := (c =? 58)%N.

(** The seconds that a clock text of minutes, a colon and seconds stands
    for. *)
Definition readTime (s : jsstring) : option N :=
  let mins := takeWhile (fun c => negb (isColon c)) s in
  match dropWhile (fun c => negb (isColon c)) s with
  | _ :: secs =>
      match readNumber mins, readNumber secs with
      | Some m, Some n => Some (m * 60 + n)%N
      | _, _ => None
      end
  | [] => None
  end.

(* ================================================================== *)
(** * Facts about the string primitives                                 *)
(* ================================================================== *)

Unset Implicit Arguments.

Lemma streq_spec a b : streq a b = true <-> a = b.
Proof.
  revert b; induction a as [|x a IH]; intros [|y b]; simpl;
    try (split; [discriminate | congruence]); try tauto.
  rewrite andb_true_iff, N.eqb_eq, IH. split.
  - intros [-> ->]; reflexivity.
  - intros E; injection E; auto.
Qed.

Lemma streq_refl a : streq a a = true.
Proof. apply streq_spec; reflexivity. Qed.

Lemma falsy_spec s : falsy s = true <-> s = [].
Proof. destruct s; simpl; split; congruence. Qed.

Lemma startsWith_spec s t : startsWith s t = true <-> starts t s.
Proof.
  revert s; induction t as [|y t IH]; intros s; simpl.
  - split; [intros _; exists s; reflexivity | reflexivity].
  - destruct s as [|x s].
    + split; [discriminate | intros [r E]; discriminate].
    + rewrite andb_true_iff, N.eqb_eq, IH. split.
      * intros [-> [r ->]]. exists r; reflexivity.
      * intros [r E]. injection E as -> ->. split; [reflexivity|].
        exists r; reflexivity.
Qed.

Lemma includes_spec s t : includes s t = true <-> occurs_in t s.
Proof.
  induction s as [|x s IH]; simpl.
  - rewrite orb_false_r, startsWith_spec. split.
    + intros [r E]. exists [], r. exact E.
    + intros [l [r E]]. destruct l; [exists r; exact E | discriminate].
  - rewrite orb_true_iff, startsWith_spec, IH. split.
    + intros [[r E] | [l [r E]]].
      * exists [], r. exact E.
      * exists (x :: l), r. rewrite E. reflexivity.
    + intros [[|y l] [r E]].
      * left. exists r. exact E.
      * right. injection E as _ E. exists l, r. exact E.
Qed.

Lemma includes_false s t : includes s t = false <-> ~ occurs_in t s.
Proof.
  rewrite <- includes_spec. destruct (includes s t); split; congruence.
Qed.

Lemma endsWith_spec s t : endsWith s t = true <-> ends t s.
Proof.
  unfold endsWith. rewrite andb_true_iff, Nat.leb_le, streq_spec. split.
  - intros [Hle E]. exists (firstn (length s - length t) s).
    rewrite <- E at 2. symmetry. apply firstn_skipn.
  - intros [l ->]. rewrite length_app. split; [lia|].
    replace (length l + length t - length t) with (length l + 0) by lia.
    rewrite skipn_app, Nat.add_0_r, skipn_all.
    replace (length l - length l) with 0 by lia. reflexivity.
Qed.

Lemma starts_occurs t s : starts t s -> occurs_in t s.
Proof. intros [r E]. exists [], r. exact E. Qed.

Lemma ends_occurs t s : ends t s -> occurs_in t s.
Proof. intros [l E]. exists l, []. rewrite app_nil_r. exact E. Qed.

Lemma occurs_refl s : occurs_in s s.
Proof. exists [], []. rewrite app_nil_r. reflexivity. Qed.

Lemma occurs_nil s : occurs_in [] s.
Proof. exists [], s. reflexivity. Qed.

Create HintDb occurs.
#[local] Hint Resolve occurs_refl occurs_nil starts_occurs ends_occurs
  : occurs.

Lemma occurs_trans a b c : occurs_in a b -> occurs_in b c -> occurs_in a c.
Proof.
  intros [l1 [r1 ->]] [l2 [r2 ->]]. exists (l2 ++ l1), (r1 ++ r2).
  repeat rewrite <- app_assoc. reflexivity.
Qed.

Lemma occurs_length t s : occurs_in t s -> length t <= length s.
Proof. intros [l [r ->]]. repeat rewrite length_app. lia. Qed.

(** Two strings that occur in each other are the same string. *)
Lemma occurs_antisym a b : occurs_in a b -> occurs_in b a -> a = b.
Proof.
  intros Hab Hba. pose proof (occurs_length _ _ Hba) as Hlen.
  destruct Hab as [l [r E]]. subst b.
  repeat rewrite length_app in Hlen.
  destruct l; [|simpl in Hlen; lia]. destruct r; [|simpl in Hlen; lia].
  simpl. rewrite app_nil_r. reflexivity.
Qed.

(** ** [slice] at the indices the reconciler uses *)

Lemma slice_last s k :
  1 <= k <= length s ->
  slice_from s (- Z.of_nat k) = skipn (length s - k) s.
Proof.
  intros Hk. unfold slice_from, slice, relative_index.
  destruct (Z.ltb_spec (- Z.of_nat k) 0); [|lia].
  destruct (Z.ltb_spec (Z.of_nat (length s)) 0); [lia|].
  replace (Z.to_nat (Z.max (Z.of_nat (length s) + - Z.of_nat k) 0))
    with (length s - k) by lia.
  replace (Z.to_nat (Z.min (Z.of_nat (length s)) (Z.of_nat (length s))))
    with (length s) by lia.
  apply firstn_all2. rewrite length_skipn. lia.
Qed.

Lemma slice_first s k :
  k <= length s -> slice s 0 (Z.of_nat k) = firstn k s.
Proof.
  intros Hk. unfold slice, relative_index. simpl.
  destruct (Z.ltb_spec (Z.of_nat k) 0); [lia|].
  replace (Z.to_nat (Z.min (Z.of_nat k) (Z.of_nat (length s)))) with k
    by lia.
  replace (Z.to_nat (Z.min 0 (Z.of_nat (length s)))) with 0 by lia.
  rewrite Nat.sub_0_r. reflexivity.
Qed.

Lemma slice_rest s k :
  k <= length s -> slice_from s (Z.of_nat k) = skipn k s.
Proof.
  intros Hk. unfold slice_from, slice, relative_index.
  destruct (Z.ltb_spec (Z.of_nat k) 0); [lia|].
  destruct (Z.ltb_spec (Z.of_nat (length s)) 0); [lia|].
  replace (Z.to_nat (Z.min (Z.of_nat k) (Z.of_nat (length s)))) with k
    by lia.
  replace (Z.to_nat (Z.min (Z.of_nat (length s)) (Z.of_nat (length s))))
    with (length s) by lia.
  apply firstn_all2. rewrite length_skipn. lia.
Qed.

(* ================================================================== *)
(** * The reconciler                                                    *)
(* ================================================================== *)

Section Reconciler.

Import RecordingPage.

Lemma overlap_loop_step p i j :
  overlap_loop p i (S j) =
  if streq (slice_from p (- Z.of_nat (S j))) (slice i 0 (Z.of_nat (S j)))
  then Some (p ++ slice_from i (Z.of_nat (S j)))
  else overlap_loop p i j.
Proof. reflexivity. Qed.

Lemma overlap_test p i k :
  1 <= k -> k <= length p -> k <= length i ->
  streq (slice_from p (- Z.of_nat k)) (slice i 0 (Z.of_nat k)) = true
  <-> overlap k p i.
Proof.
  intros H1 Hp Hi. rewrite streq_spec, slice_last, slice_first by lia.
  unfold overlap. tauto.
Qed.

(** What the loop returns, and that it stops at the largest overlap. *)
Lemma overlap_loop_found p i n merged :
  n <= length p -> n <= length i ->
  overlap_loop p i n = Some merged ->
  exists k, k <= n /\ overlap k p i /\ merged = p ++ skipn k i /\
            forall k', k < k' <= n -> ~ overlap k' p i.
Proof.
  induction n as [|n IH]; intros Hp Hi; [discriminate|].
  rewrite overlap_loop_step.
  destruct (streq _ _) eqn:E.
  - intros Hm. apply overlap_test in E; try lia.
    rewrite slice_rest in Hm by lia. injection Hm as <-.
    exists (S n). split; [lia | split; [exact E | split; [reflexivity |]]].
    intros k' Hk'. lia.
  - intros H. destruct IH as [k [Hk [Ho [Hm Hmax]]]]; try lia; [exact H|].
    exists k. split; [lia | split; [exact Ho | split; [exact Hm |]]].
    intros k' Hk'. destruct (Nat.eq_dec k' (S n)) as [->|Hne].
    + intros Ho'. apply overlap_test in Ho'; try lia. congruence.
    + apply Hmax. lia.
Qed.

Lemma overlap_loop_none p i n :
  n <= length p -> n <= length i ->
  overlap_loop p i n = None ->
  forall k, k <= n -> ~ overlap k p i.
Proof.
  induction n as [|n IH]; intros Hp Hi.
  - intros _ k Hk [H1 _]. lia.
  - rewrite overlap_loop_step. destruct (streq _ _) eqn:E; [discriminate|].
    intros H k Hk. destruct (Nat.eq_dec k (S n)) as [->|Hne].
    + intros Ho. apply overlap_test in Ho; try lia. congruence.
    + apply IH; try lia. exact H.
Qed.

Lemma mergeTranscripts_branch p i : merge_branch p i (mergeTranscripts p i).
Proof.
  unfold mergeTranscripts.
  destruct (falsy i) eqn:Ei.
  { apply merge_empty_incoming, falsy_spec, Ei. }
  assert (Hi : i <> []) by (intros ->; discriminate).
  destruct (falsy p) eqn:Ep.
  { apply merge_empty_previous; [exact Hi | apply falsy_spec, Ep]. }
  assert (Hp : p <> []) by (intros ->; discriminate).
  destruct (startsWith i p) eqn:Es.
  { apply merge_superset; auto. apply starts_occurs, startsWith_spec, Es. }
  destruct (includes i p) eqn:Eip.
  { apply merge_superset; auto. apply includes_spec, Eip. }
  apply includes_false in Eip.
  destruct (includes p i) eqn:Epi.
  { apply merge_contained; auto. apply includes_spec, Epi. }
  apply includes_false in Epi.
  cbv zeta.
  destruct (overlap_loop p i (Nat.min (length p) (length i))) as [m|] eqn:El.
  - apply overlap_loop_found in El; try lia.
    destruct El as [k [Hk [Ho [-> Hmax]]]].
    apply merge_overlap; auto.
    intros k' Ho'. destruct (Nat.le_gt_cases k' k) as [|Hlt]; [assumption|].
    exfalso. apply (Hmax k'); [|exact Ho'].
    destruct Ho' as [_ [? [? _]]]. lia.
  - apply merge_append; auto.
    intros k Ho.
    apply (overlap_loop_none p i (Nat.min (length p) (length i))) with k;
      try lia; try assumption.
    destruct Ho as [_ [? [? _]]]. lia.
Qed.

(** Case analysis on the branch that [mergeTranscripts p i] takes. *)
Ltac merge_cases p i :=
  destruct (mergeTranscripts_branch p i) as
    [Hi | Hi Hp | Hi Hp Hsup | Hi Hp Hsup Hsub | k Hi Hp Hsup Hsub Ho Hmax
    | Hi Hp Hsup Hsub Hno].

(** An overlap lets [incoming] be read off the end of the merged text. *)
Lemma overlap_completes k p i :
  overlap k p i -> p ++ skipn k i = firstn (length p - k) p ++ i.
Proof.
  intros [_ [_ [_ E]]].
  rewrite <- (firstn_skipn (length p - k) p) at 1.
  rewrite <- app_assoc, E, firstn_skipn. reflexivity.
Qed.

(** The same, with the overlap written out on the side of [incoming]. *)
Lemma merged_ends_with_incoming p i :
  ~ occurs_in i p -> ends i (mergeTranscripts p i).
Proof.
  intros Hn. merge_cases p i.
  - exfalso. apply Hn. subst i. apply occurs_nil.
  - exists []. reflexivity.
  - exists []. reflexivity.
  - contradiction.
  - exists (firstn (length p - k) p). apply overlap_completes, Ho.
  - exists (p ++ separator p). rewrite <- app_assoc. reflexivity.
Qed.

Lemma previous_occurs_in_merged p i : occurs_in p (mergeTranscripts p i).
Proof.
  merge_cases p i; subst; auto with occurs;
    apply starts_occurs; eexists; reflexivity.
Qed.

(** A run of updates only: what was in the buffer stays in it. *)
Lemma buffer_kept updates :
  forall buffer,
    occurs_in buffer (run (List.map TranscriptUpdate updates) buffer).
Proof.
  induction updates as [|u updates IH]; intros buffer; simpl.
  - apply occurs_refl.
  - apply occurs_trans with (mergeTranscripts buffer (or_empty u)).
    + apply previous_occurs_in_merged.
    + apply IH.
Qed.

(** C1. For non-empty [previous] and [incoming]: when [incoming] contains
    [previous] (as it does when it starts with it), the merge is
    [incoming]; when it does not and [previous] contains [incoming], the
    merge is [previous]. *)
Theorem merge_prefers_the_container (previous incoming : jsstring) :
  previous <> [] -> incoming <> [] ->
  (occurs_in previous incoming ->
   mergeTranscripts previous incoming = incoming) /\
  (starts previous incoming ->
   mergeTranscripts previous incoming = incoming) /\
  (~ occurs_in previous incoming -> occurs_in incoming previous ->
   mergeTranscripts previous incoming = previous).
Proof.
  intros Hp0 Hi0.
  assert (Hsup : occurs_in previous incoming ->
                 mergeTranscripts previous incoming = incoming).
  { intros H. destruct (mergeTranscripts_branch previous incoming);
      try reflexivity; try contradiction. }
  split; [exact Hsup | split].
  - intros H. apply Hsup, starts_occurs, H.
  - intros Hn H. destruct (mergeTranscripts_branch previous incoming);
      try reflexivity; try contradiction.
Qed.

Lemma merge_prefers_the_container_witness :
  (lit "so we" <> [] /\ lit "well so we need" <> [] /\
   occurs_in (lit "so we") (lit "well so we need") /\
   mergeTranscripts (lit "so we") (lit "well so we need")
   = lit "well so we need") /\
  (lit "so we" <> [] /\ lit "so we need" <> [] /\
   starts (lit "so we") (lit "so we need") /\
   mergeTranscripts (lit "so we") (lit "so we need") = lit "so we need") /\
  (lit "well so we need" <> [] /\ lit "so we" <> [] /\
   ~ occurs_in (lit "well so we need") (lit "so we") /\
   occurs_in (lit "so we") (lit "well so we need") /\
   mergeTranscripts (lit "well so we need") (lit "so we")
   = lit "well so we need").
Proof.
  assert (H : occurs_in (lit "so we") (lit "well so we need")).
  { exists (lit "well "), (lit " need"). reflexivity. }
  assert (S : starts (lit "so we") (lit "so we need")).
  { exists (lit " need"). reflexivity. }
  assert (N : ~ occurs_in (lit "well so we need") (lit "so we")).
  { apply includes_false. vm_compute. reflexivity. }
  split; [|split].
  - destruct (merge_prefers_the_container
                (lit "so we") (lit "well so we need")) as [Hsup _];
      [discriminate | discriminate |].
    split; [discriminate | split; [discriminate | split; [exact H |]]].
    exact (Hsup H).
  - destruct (merge_prefers_the_container
                (lit "so we") (lit "so we need")) as [_ [Hpre _]];
      [discriminate | discriminate |].
    split; [discriminate | split; [discriminate | split; [exact S |]]].
    exact (Hpre S).
  - destruct (merge_prefers_the_container
                (lit "well so we need") (lit "so we")) as [_ [_ Hsub]];
      [discriminate | discriminate |].
    split; [discriminate | split; [discriminate |
      split; [exact N | split; [exact H |]]]].
    exact (Hsub N H).
Defined.

(** C3. [previous] occurs in the merge of [previous] with anything; so,
    along any updates handled in order from the empty buffer, the buffer
    at one moment occurs in the buffer at every later moment. Only the
    start of a session empties it. *)
Theorem merge_never_deletes :
  (forall previous incoming,
      occurs_in previous (mergeTranscripts previous incoming)) /\
  (forall earlier later : list (option jsstring),
      occurs_in (run (List.map TranscriptUpdate earlier) [])
                (run (List.map TranscriptUpdate (earlier ++ later)) [])) /\
  (forall buffer, step buffer SessionStart = []).
Proof.
  split; [exact previous_occurs_in_merged | split].
  - intros earlier later. unfold run.
    rewrite List.map_app, fold_left_app. apply buffer_kept.
  - reflexivity.
Qed.

(** C4. Merging with the empty string, on either side, gives the other
    string. *)
Theorem merge_with_empty (p : jsstring) :
  mergeTranscripts p [] = p /\ mergeTranscripts [] p = p.
Proof.
  split; [reflexivity|]. destruct p; reflexivity.
Qed.

(** C10. [incoming] occurs in the merge: when [previous] contains it the
    merge is [previous], and otherwise the merge ends with [incoming]. *)
Theorem merge_keeps_incoming (previous incoming : jsstring) :
  occurs_in incoming (mergeTranscripts previous incoming) /\
  (if includes previous incoming
   then mergeTranscripts previous incoming = previous
   else ends incoming (mergeTranscripts previous incoming)).
Proof.
  assert (Hsub : occurs_in incoming previous ->
                 mergeTranscripts previous incoming = previous).
  { intros H.
    merge_cases previous incoming; try reflexivity; try contradiction.
    - subst previous. symmetry. apply occurs_antisym;
        [apply occurs_nil | exact H].
    - apply occurs_antisym; assumption. }
  destruct (includes previous incoming) eqn:E.
  - apply includes_spec in E. split; [|apply Hsub, E].
    rewrite (Hsub E). exact E.
  - apply includes_false in E. split.
    + apply ends_occurs, merged_ends_with_incoming, E.
    + apply merged_ends_with_incoming, E.
Qed.

(** C2, as the code has it. For non-empty [previous] and [incoming],
    neither containing the other: when an end of [previous] is a start
    of [incoming], the merge is [previous] followed by what [incoming]
    has after the longest such overlap; when there is none, the merge is
    [previous] and [incoming] with one space between them, unless
    [previous] ends with the space character U+0020. The two examples of
    the specification follow. *)
Theorem merge_overlap_or_append :
  (forall previous incoming : jsstring,
      previous <> [] -> incoming <> [] ->
      ~ occurs_in previous incoming -> ~ occurs_in incoming previous ->
      ((exists k, overlap k previous incoming) ->
       exists k, overlap k previous incoming /\
                 (forall k', overlap k' previous incoming -> k' <= k) /\
                 mergeTranscripts previous incoming
                 = previous ++ skipn k incoming) /\
      ((forall k, ~ overlap k previous incoming) ->
       (ends (lit " ") previous ->
        mergeTranscripts previous incoming = previous ++ incoming) /\
       (~ ends (lit " ") previous ->
        mergeTranscripts previous incoming
        = previous ++ lit " " ++ incoming))) /\
  mergeTranscripts (lit "hello wor") (lit "world peace")
  = lit "hello world peace" /\
  mergeTranscripts (lit "foo") (lit "bar") = lit "foo bar".
Proof.
  split; [|split; reflexivity].
  intros previous incoming Hp0 Hi0 Hsup0 Hsub0.
  merge_cases previous incoming; try contradiction.
  - split.
    + intros _. exists k. auto.
    + intros Hno. exfalso. exact (Hno k Ho).
  - split.
    + intros [k Ho]. exfalso. exact (Hno k Ho).
    + intros _. unfold separator.
      destruct (endsWith previous (lit " ")) eqn:E.
      * apply endsWith_spec in E. split; [reflexivity | contradiction].
      * split; [|reflexivity]. intros He. apply endsWith_spec in He.
        congruence.
Qed.

Lemma merge_overlap_or_append_witness :
  (lit "hello wor" <> [] /\ lit "world peace" <> [] /\
   ~ occurs_in (lit "hello wor") (lit "world peace") /\
   ~ occurs_in (lit "world peace") (lit "hello wor") /\
   overlap 3 (lit "hello wor") (lit "world peace") /\
   exists k, overlap k (lit "hello wor") (lit "world peace") /\
             mergeTranscripts (lit "hello wor") (lit "world peace")
             = lit "hello wor" ++ skipn k (lit "world peace")) /\
  (lit "foo" <> [] /\ lit "bar" <> [] /\
   ~ occurs_in (lit "foo") (lit "bar") /\
   ~ occurs_in (lit "bar") (lit "foo") /\
   (forall k, ~ overlap k (lit "foo") (lit "bar")) /\
   ~ ends (lit " ") (lit "foo") /\
   mergeTranscripts (lit "foo") (lit "bar")
   = lit "foo" ++ lit " " ++ lit "bar") /\
  (lit "foo " <> [] /\ lit "bar" <> [] /\
   ~ occurs_in (lit "foo ") (lit "bar") /\
   ~ occurs_in (lit "bar") (lit "foo ") /\
   (forall k, ~ overlap k (lit "foo ") (lit "bar")) /\
   ends (lit " ") (lit "foo ") /\
   mergeTranscripts (lit "foo ") (lit "bar") = lit "foo " ++ lit "bar").
Proof.
  assert (O : overlap 3 (lit "hello wor") (lit "world peace")).
  { unfold overlap. simpl. repeat split; try lia. }
  assert (N1 : ~ occurs_in (lit "hello wor") (lit "world peace")).
  { apply includes_false. vm_compute. reflexivity. }
  assert (N2 : ~ occurs_in (lit "world peace") (lit "hello wor")).
  { apply includes_false. vm_compute. reflexivity. }
  assert (N3 : ~ occurs_in (lit "foo") (lit "bar")).
  { apply includes_false. vm_compute. reflexivity. }
  assert (N4 : ~ occurs_in (lit "bar") (lit "foo")).
  { apply includes_false. vm_compute. reflexivity. }
  assert (N5 : forall k, ~ overlap k (lit "foo") (lit "bar")).
  { intros k [H1 [H2 [_ E]]]. simpl in H2.
    destruct k as [|[|[|[|k]]]]; try lia; discriminate E. }
  assert (N6 : ~ ends (lit " ") (lit "foo")).
  { intros E. apply endsWith_spec in E. vm_compute in E. discriminate E. }
  assert (N7 : ~ occurs_in (lit "foo ") (lit "bar")).
  { apply includes_false. vm_compute. reflexivity. }
  assert (N8 : ~ occurs_in (lit "bar") (lit "foo ")).
  { apply includes_false. vm_compute. reflexivity. }
  assert (N9 : forall k, ~ overlap k (lit "foo ") (lit "bar")).
  { intros k [H1 [_ [H3 E]]]. simpl in H3.
    destruct k as [|[|[|[|k]]]]; try lia; discriminate E. }
  assert (E1 : ends (lit " ") (lit "foo ")).
  { exists (lit "foo"). reflexivity. }
  destruct merge_overlap_or_append as [G _].
  split; [|split].
  - destruct (G (lit "hello wor") (lit "world peace")) as [Hov _];
      [discriminate | discriminate | exact N1 | exact N2 |].
    destruct Hov as [k [Hk [_ Hm]]]; [exists 3; exact O|].
    split; [discriminate | split; [discriminate | split; [exact N1 |
      split; [exact N2 | split; [exact O |]]]]].
    exists k. split; assumption.
  - destruct (G (lit "foo") (lit "bar")) as [_ Happ];
      [discriminate | discriminate | exact N3 | exact N4 |].
    destruct (Happ N5) as [_ Hsp].
    split; [discriminate | split; [discriminate | split; [exact N3 |
      split; [exact N4 | split; [exact N5 | split; [exact N6 |]]]]]].
    exact (Hsp N6).
  - destruct (G (lit "foo ") (lit "bar")) as [_ Happ];
      [discriminate | discriminate | exact N7 | exact N8 |].
    destruct (Happ N9) as [Hsp _].
    split; [discriminate | split; [discriminate | split; [exact N7 |
      split; [exact N8 | split; [exact N9 | split; [exact E1 |]]]]]].
    exact (Hsp E1).
Defined.

(** C2, as the specification words it, fails: after a [previous] that
    ends with a tab, which is white space, and with no overlap, a space
    is put in all the same. *)
Lemma merge_adds_space_after_tab :
  fooTab <> [] /\ lit "bar" <> [] /\
  ~ occurs_in fooTab (lit "bar") /\ ~ occurs_in (lit "bar") fooTab /\
  (forall k, ~ overlap k fooTab (lit "bar")) /\
  endsWithWhiteSpace fooTab = true /\
  mergeTranscripts fooTab (lit "bar")
  = lit "foo" ++ [9%N; 32%N] ++ lit "bar" /\
  mergeTranscripts fooTab (lit "bar") <> fooTab ++ lit "bar".
Proof.
  split; [discriminate | split; [discriminate |]].
  split; [apply includes_false; vm_compute; reflexivity |].
  split; [apply includes_false; vm_compute; reflexivity |].
  split.
  { intros k [H1 [H2 [H3 E]]]. simpl in H3.
    destruct k as [|[|[|[|k]]]]; try lia; discriminate E. }
  split; [reflexivity | split; [reflexivity |]].
  vm_compute. discriminate.
Qed.

Lemma button_overlap_loop_step p i j :
  RecordingButton.overlap_loop p i (S j) =
  if streq (slice_from p (- Z.of_nat (S j))) (slice i 0 (Z.of_nat (S j)))
  then Some (p ++ slice_from i (Z.of_nat (S j)))
  else RecordingButton.overlap_loop p i j.
Proof. reflexivity. Qed.

Lemma overlap_loop_same p i n :
  RecordingButton.overlap_loop p i n = RecordingPage.overlap_loop p i n.
Proof.
  induction n as [|n IH]; [reflexivity|].
  rewrite overlap_loop_step, button_overlap_loop_step, IH. reflexivity.
Qed.

(** C9. The [mergeTranscripts] of the recording page and the one of the
    recording button return the same string on every pair of strings. *)
Theorem mergeTranscripts_same (previous incoming : jsstring) :
  RecordingButton.mergeTranscripts previous incoming
  = RecordingPage.mergeTranscripts previous incoming.
Proof.
  unfold RecordingButton.mergeTranscripts, RecordingPage.mergeTranscripts.
  rewrite overlap_loop_same. reflexivity.
Qed.

End Reconciler.

(* ================================================================== *)
(** * Facts about [dropWhile] and [trim]                                *)
(* ================================================================== *)

Lemma pairs_ind (A : Type) (P : list A -> Prop) :
  P [] -> (forall a, P [a]) ->
  (forall a d s, P s -> P (d :: s) -> P (a :: d :: s)) ->
  forall s, P s.
Proof.
  intros H0 H1 H2.
  assert (H : forall s, P s /\ forall a, P (a :: s)).
  { induction s as [|d s [IH1 IH2]].
    - split; auto.
    - split; [apply IH2 | intros a; apply H2; auto]. }
  intros s. apply H.
Qed.

Lemma punctuation_not_space c :
  isPunctuation c = true -> isWhiteSpace c = false.
Proof.
  unfold isPunctuation. repeat rewrite orb_true_iff. repeat rewrite N.eqb_eq.
  intros [[[-> | ->] | ->] | ->]; reflexivity.
Qed.

Lemma dropWhile_head f s : headIs f (dropWhile f s) = false.
Proof.
  induction s as [|c s IH]; simpl; [reflexivity|].
  destruct (f c) eqn:E; [exact IH | simpl; exact E].
Qed.

Lemma dropWhile_id f s : headIs f s = false -> dropWhile f s = s.
Proof. destruct s as [|c s]; simpl; [reflexivity | intros ->; reflexivity]. Qed.

Lemma dropWhile_snoc_keep f s c :
  f c = false -> dropWhile f (s ++ [c]) = dropWhile f s ++ [c].
Proof.
  intros Hc. induction s as [|a s IH]; simpl.
  - rewrite Hc. reflexivity.
  - destruct (f a); [exact IH | reflexivity].
Qed.

Lemma dropWhile_idem f s : dropWhile f (dropWhile f s) = dropWhile f s.
Proof. apply dropWhile_id, dropWhile_head. Qed.

(** ** [trim] *)

Lemma trimStart_id s : headIs isWhiteSpace s = false -> trimStart s = s.
Proof. apply dropWhile_id. Qed.

Lemma trimEnd_id s : headIs isWhiteSpace (rev s) = false -> trimEnd s = s.
Proof.
  intros H. unfold trimEnd. rewrite dropWhile_id by exact H.
  apply rev_involutive.
Qed.

Lemma trimEnd_snoc_space s c :
  isWhiteSpace c = true -> trimEnd (s ++ [c]) = trimEnd s.
Proof.
  intros H. unfold trimEnd. rewrite rev_app_distr. simpl. rewrite H.
  reflexivity.
Qed.

Lemma trimEnd_snoc_keep s c :
  isWhiteSpace c = false -> trimEnd (s ++ [c]) = s ++ [c].
Proof. intros H. apply trimEnd_id. rewrite rev_app_distr. simpl. exact H. Qed.

Lemma trimEnd_cons_keep c s :
  isWhiteSpace c = false -> trimEnd (c :: s) = c :: trimEnd s.
Proof.
  intros H. unfold trimEnd. simpl. rewrite dropWhile_snoc_keep by exact H.
  rewrite rev_app_distr. reflexivity.
Qed.

(* ================================================================== *)
(** * The clean-up of the heuristic structurer                          *)
(* ================================================================== *)

Section CleanUp.

(** ** Collapsing white space *)
Local Abbreviation collapse_from := (replaceRuns_from isWhiteSpace (lit " ")).

Lemma collapse_single_spaced s :
  forall inside,
    single_spaced (collapse_from inside s) /\
    (inside = true -> headIs isWhiteSpace (collapse_from inside s) = false).
Proof.
  induction s as [|c s IH]; intros inside; simpl; [auto|].
  destruct (isWhiteSpace c) eqn:Ec.
  - destruct (IH true) as [Hs Hh]. destruct inside; simpl.
    + auto.
    + split; [|discriminate]. split; [|exact Hs]. auto.
  - destruct (IH false) as [Hs _]. simpl. rewrite Ec.
    split; [|reflexivity]. split; [discriminate | exact Hs].
Qed.

Lemma collapse_id s :
  single_spaced s ->
  forall inside, (inside = true -> headIs isWhiteSpace s = false) ->
                 collapse_from inside s = s.
Proof.
  induction s as [|c s IH]; intros Hss inside Hin; simpl; [reflexivity|].
  destruct Hss as [Hc Hs]. destruct (isWhiteSpace c) eqn:Ec.
  - destruct (Hc eq_refl) as [-> Hh].
    destruct inside; [specialize (Hin eq_refl); simpl in Hin; congruence|].
    simpl. f_equal. apply IH; auto.
  - f_equal. apply IH; [exact Hs | discriminate].
Qed.

(** ** Removing the space before punctuation *)
Local Abbreviation unspace := removeSpaceBeforePunctuation.
Local Abbreviation respace := addSpaceAfterPunctuation.

Lemma unspace_keep c s :
  isWhiteSpace c = false -> unspace (c :: s) = c :: unspace s.
Proof. intros H. simpl. rewrite H. reflexivity. Qed.

Lemma unspace_space s :
  headIs isWhiteSpace s = false ->
  unspace (32%N :: s)
  = if headIs isPunctuation s then unspace s else 32%N :: unspace s.
Proof. intros H. simpl. rewrite (dropWhile_id _ _ H). reflexivity. Qed.

Lemma unspace_head g s :
  headIs isWhiteSpace s = false -> headIs g (unspace s) = headIs g s.
Proof.
  destruct s as [|c s]; [reflexivity|]. simpl. intros ->. reflexivity.
Qed.

Lemma unspace_single_spaced s :
  single_spaced s ->
  single_spaced (unspace s) /\ no_space_before_punctuation (unspace s).
Proof.
  induction s as [|c s IH]; [simpl; auto|]. intros [Hc Hs].
  destruct (IH Hs) as [IH1 IH2].
  destruct (isWhiteSpace c) eqn:Ec.
  - destruct (Hc eq_refl) as [-> Hh]. simpl.
    rewrite (dropWhile_id _ _ Hh).
    destruct (headIs isPunctuation s) eqn:Ep; simpl; [auto|].
    rewrite (unspace_head _ _ Hh), (unspace_head _ _ Hh). auto.
  - rewrite (unspace_keep _ _ Ec). simpl. rewrite Ec.
    split; (split; [discriminate | assumption]).
Qed.

Lemma lookahead_snoc_space g s c :
  isWhiteSpace c = true ->
  headIs g (dropWhile isWhiteSpace (s ++ [c]))
  = headIs g (dropWhile isWhiteSpace s).
Proof.
  intros Hc. induction s as [|a s IH]; simpl.
  - rewrite Hc. reflexivity.
  - destruct (isWhiteSpace a); [exact IH | reflexivity].
Qed.

Lemma unspace_snoc_space s c :
  isWhiteSpace c = true -> unspace (s ++ [c]) = unspace s ++ [c].
Proof.
  intros Hc. induction s as [|a s IH]; simpl.
  - rewrite Hc. reflexivity.
  - rewrite (lookahead_snoc_space _ _ _ Hc), IH.
    destruct (_ && _); reflexivity.
Qed.

Lemma unspace_keeps_last s c :
  isWhiteSpace c = false -> exists y, unspace (s ++ [c]) = y ++ [c].
Proof.
  intros Hc. induction s as [|a s [y IH]]; simpl.
  - rewrite Hc. exists []. reflexivity.
  - rewrite IH. destruct (_ && _); [exists y | exists (a :: y)]; reflexivity.
Qed.

(** ** Adding the space after punctuation *)
Lemma respace_skip c s :
  isPunctuation c && headIs (fun d => negb (isWhiteSpace d)) s = false ->
  respace (c :: s) = c :: respace s.
Proof.
  destruct s as [|d s]; simpl; [reflexivity|]. intros ->. reflexivity.
Qed.

Lemma respace_insert c d s :
  isPunctuation c = true -> isWhiteSpace d = false ->
  respace (c :: d :: s) = c :: 32%N :: d :: respace s.
Proof. intros Hc Hd. simpl. rewrite Hc, Hd. reflexivity. Qed.

Lemma respace_plain c s :
  isPunctuation c = false -> respace (c :: s) = c :: respace s.
Proof. intros H. apply respace_skip. rewrite H. reflexivity. Qed.

Lemma respace_before_space c s :
  headIs isWhiteSpace s = true -> respace (c :: s) = c :: respace s.
Proof.
  intros H. apply respace_skip. destruct s as [|d s]; [discriminate|].
  simpl in *. rewrite H. apply andb_false_r.
Qed.

Lemma respace_two c d s :
  respace (c :: d :: s) =
  if isPunctuation c && negb (isWhiteSpace d)
  then c :: 32%N :: d :: respace s
  else c :: respace (d :: s).
Proof. reflexivity. Qed.

Lemma respace_head g s : headIs g (respace s) = headIs g s.
Proof.
  destruct s as [|c [|d s]]; simpl; try reflexivity.
  destruct (_ && _); reflexivity.
Qed.

Lemma space_is_space : isWhiteSpace 32%N = true.
Proof. reflexivity. Qed.

Lemma space_not_punctuation c :
  isWhiteSpace c = true -> isPunctuation c = false.
Proof.
  intros H. destruct (isPunctuation c) eqn:E; [|reflexivity].
  apply punctuation_not_space in E. congruence.
Qed.

Lemma respace_single_spaced s : single_spaced s -> single_spaced (respace s).
Proof.
  induction s as [| a | a d s IH1 IH2] using pairs_ind; try (simpl; tauto).
  intros [Ha [Hd Hs]].
  destruct (isPunctuation a && negb (isWhiteSpace d)) eqn:E.
  - apply andb_true_iff in E. destruct E as [Ea Ed].
    apply negb_true_iff in Ed. rewrite (respace_insert _ _ _ Ea Ed).
    pose proof (punctuation_not_space _ Ea) as Hna.
    simpl. rewrite Hna, Ed.
    repeat split; try discriminate; try reflexivity. apply IH1, Hs.
  - replace (respace (a :: d :: s)) with (a :: respace (d :: s))
      by (simpl; rewrite E; reflexivity).
    split; [|apply IH2; split; assumption].
    intros Hw. destruct (Ha Hw) as [-> Hh]. split; [reflexivity|].
    rewrite respace_head. exact Hh.
Qed.

Lemma respace_snoc_space s c :
  isWhiteSpace c = true -> respace (s ++ [c]) = respace s ++ [c].
Proof.
  intros Hc.
  induction s as [| a | a d s IH1 IH2] using pairs_ind.
  - reflexivity.
  - simpl. rewrite Hc. simpl. rewrite andb_false_r. reflexivity.
  - change ((a :: d :: s) ++ [c]) with (a :: d :: (s ++ [c])).
    rewrite 2 respace_two.
    destruct (isPunctuation a && negb (isWhiteSpace d)).
    + rewrite IH1. reflexivity.
    + change (d :: s ++ [c]) with ((d :: s) ++ [c]). rewrite IH2.
      reflexivity.
Qed.

Lemma respace_keeps_last s c : exists y, respace (s ++ [c]) = y ++ [c].
Proof.
  induction s as [| a | a d s [y1 IH1] [y2 IH2]] using pairs_ind.
  - exists []. reflexivity.
  - simpl. destruct (_ && _); [exists [a; 32%N] | exists [a]]; reflexivity.
  - change ((a :: d :: s) ++ [c]) with (a :: d :: (s ++ [c])).
    rewrite respace_two.
    destruct (isPunctuation a && negb (isWhiteSpace d)).
    + rewrite IH1. exists (a :: 32%N :: d :: y1). reflexivity.
    + change (d :: s ++ [c]) with ((d :: s) ++ [c]). rewrite IH2.
      exists (a :: y2). reflexivity.
Qed.


(** ** Single spacing is kept *)
Lemma headIs_app g (x y : jsstring) :
  x <> [] -> headIs g (x ++ y) = headIs g x.
Proof. destruct x; [congruence | reflexivity]. Qed.

Lemma single_spaced_dropWhile f s :
  single_spaced s -> single_spaced (dropWhile f s).
Proof.
  induction s as [|c s IH]; [auto|]. intros H. simpl.
  destruct (f c); [apply IH, H | exact H].
Qed.

Lemma single_spaced_app_l x y : single_spaced (x ++ y) -> single_spaced x.
Proof.
  induction x as [|a x IH]; simpl; [auto|]. intros [Ha Hs].
  split; [|apply IH, Hs]. intros Hw. destruct (Ha Hw) as [-> Hh].
  split; [reflexivity|]. destruct x; [reflexivity | exact Hh].
Qed.

Lemma dropWhile_suffix f (s : jsstring) : exists u, s = u ++ dropWhile f s.
Proof.
  induction s as [|c s [u IH]]; simpl.
  - exists []. reflexivity.
  - destruct (f c); [exists (c :: u); simpl; f_equal; exact IH|].
    exists []. reflexivity.
Qed.

Lemma trimEnd_prefix s : exists w, s = trimEnd s ++ w.
Proof.
  unfold trimEnd. destruct (dropWhile_suffix isWhiteSpace (rev s)) as [u E].
  exists (rev u). rewrite <- rev_app_distr, <- E. symmetry.
  apply rev_involutive.
Qed.

Lemma single_spaced_trim s : single_spaced s -> single_spaced (trim s).
Proof.
  intros H. unfold trim.
  destruct (trimEnd_prefix (trimStart s)) as [w E].
  apply single_spaced_app_l with w. rewrite <- E.
  apply single_spaced_dropWhile, H.
Qed.

Lemma single_spaced_snoc x c :
  single_spaced (x ++ [c]) -> isWhiteSpace c = true ->
  c = 32%N /\ headIs isWhiteSpace (rev x) = false.
Proof.
  intros H Hc. induction x as [|a x IH]; simpl in H.
  - destruct H as [H _]. destruct (H Hc) as [-> _]. auto.
  - destruct H as [Ha Hs]. destruct (IH Hs) as [-> Hr].
    split; [reflexivity|]. simpl. destruct x as [|b x].
    + simpl. destruct (isWhiteSpace a) eqn:Ea; [|reflexivity].
      destruct (Ha eq_refl) as [_ Hh]. simpl in Hh. congruence.
    + rewrite headIs_app; [exact Hr|].
      simpl. destruct (rev x); discriminate.
Qed.

Lemma ends_case s :
  single_spaced s ->
  headIs isWhiteSpace (rev s) = false \/
  exists x, s = x ++ [32%N] /\ headIs isWhiteSpace (rev x) = false.
Proof.
  intros H. destruct (rev s) as [|c r] eqn:E; [left; reflexivity|].
  assert (Es : s = rev r ++ [c]).
  { rewrite <- (rev_involutive s), E. reflexivity. }
  destruct (isWhiteSpace c) eqn:Ec; [right | left; exact Ec].
  rewrite Es in H. destruct (single_spaced_snoc _ _ H Ec) as [-> Hr].
  exists (rev r). auto.
Qed.

Lemma last_kept (f : jsstring -> jsstring) :
  f [] = [] ->
  (forall x c, isWhiteSpace c = false -> exists y, f (x ++ [c]) = y ++ [c]) ->
  forall s, headIs isWhiteSpace (rev s) = false ->
            headIs isWhiteSpace (rev (f s)) = false.
Proof.
  intros Hnil Hlast s H. destruct (rev s) as [|c r] eqn:E.
  - assert (Es : s = []).
    { rewrite <- (rev_involutive s), E. reflexivity. }
    rewrite Es, Hnil. reflexivity.
  - assert (Es : s = rev r ++ [c]).
    { rewrite <- (rev_involutive s), E. reflexivity. }
    simpl in H. destruct (Hlast (rev r) c H) as [y Ey].
    rewrite Es, Ey, rev_app_distr. exact H.
Qed.

Lemma unspace_last_kept s :
  headIs isWhiteSpace (rev s) = false ->
  headIs isWhiteSpace (rev (unspace s)) = false.
Proof.
  apply last_kept; [reflexivity | intros x c; apply unspace_keeps_last].
Qed.

Lemma respace_last_kept s :
  headIs isWhiteSpace (rev s) = false ->
  headIs isWhiteSpace (rev (respace s)) = false.
Proof.
  apply last_kept; [reflexivity | intros x c _; apply respace_keeps_last].
Qed.

(** ** [trim] commutes with the two replacements on single-spaced text *)
Lemma unspace_trimStart s :
  single_spaced s -> unspace (trimStart s) = trimStart (unspace s).
Proof.
  destruct s as [|c s]; [reflexivity|]. intros [Hc _]. unfold trimStart.
  destruct (isWhiteSpace c) eqn:Ec.
  - destruct (Hc eq_refl) as [-> Hh]. simpl.
    rewrite (dropWhile_id _ _ Hh).
    assert (Hu : dropWhile isWhiteSpace (unspace s) = unspace s).
    { apply dropWhile_id. rewrite unspace_head; assumption. }
    destruct (headIs isPunctuation s); simpl; rewrite Hu; reflexivity.
  - rewrite (unspace_keep _ _ Ec). simpl. rewrite Ec. simpl. rewrite Ec.
    reflexivity.
Qed.

Lemma respace_trimStart s :
  single_spaced s -> respace (trimStart s) = trimStart (respace s).
Proof.
  destruct s as [|c s]; [reflexivity|]. intros [Hc _]. unfold trimStart.
  destruct (isWhiteSpace c) eqn:Ec.
  - destruct (Hc eq_refl) as [-> Hh]. rewrite respace_plain by reflexivity.
    simpl. rewrite (dropWhile_id _ _ Hh). symmetry. apply dropWhile_id.
    rewrite respace_head. exact Hh.
  - rewrite (dropWhile_id isWhiteSpace (c :: s)) by exact Ec.
    symmetry. apply dropWhile_id. rewrite respace_head. exact Ec.
Qed.

Lemma unspace_trimEnd s :
  single_spaced s -> unspace (trimEnd s) = trimEnd (unspace s).
Proof.
  intros H. destruct (ends_case s H) as [He | [x [-> He]]].
  - rewrite (trimEnd_id _ He). symmetry.
    apply trimEnd_id, unspace_last_kept, He.
  - rewrite trimEnd_snoc_space, unspace_snoc_space, trimEnd_snoc_space
      by reflexivity.
    rewrite (trimEnd_id _ He). symmetry.
    apply trimEnd_id, unspace_last_kept, He.
Qed.

Lemma respace_trimEnd s :
  single_spaced s -> respace (trimEnd s) = trimEnd (respace s).
Proof.
  intros H. destruct (ends_case s H) as [He | [x [-> He]]].
  - rewrite (trimEnd_id _ He). symmetry.
    apply trimEnd_id, respace_last_kept, He.
  - rewrite trimEnd_snoc_space, respace_snoc_space, trimEnd_snoc_space
      by reflexivity.
    rewrite (trimEnd_id _ He). symmetry.
    apply trimEnd_id, respace_last_kept, He.
Qed.

Lemma unspace_trim s : single_spaced s -> unspace (trim s) = trim (unspace s).
Proof.
  intros H. unfold trim.
  rewrite unspace_trimEnd by (apply single_spaced_dropWhile, H).
  rewrite unspace_trimStart by exact H. reflexivity.
Qed.

Lemma respace_trim s : single_spaced s -> respace (trim s) = trim (respace s).
Proof.
  intros H. unfold trim.
  rewrite respace_trimEnd by (apply single_spaced_dropWhile, H).
  rewrite respace_trimStart by exact H. reflexivity.
Qed.

Lemma trimEnd_head s :
  headIs isWhiteSpace s = false -> headIs isWhiteSpace (trimEnd s) = false.
Proof.
  destruct s as [|c s]; [reflexivity|]. simpl. intros Hc.
  rewrite (trimEnd_cons_keep _ _ Hc). exact Hc.
Qed.

Lemma trim_head s : headIs isWhiteSpace (trim s) = false.
Proof. apply trimEnd_head, dropWhile_head. Qed.

Lemma trim_last s : headIs isWhiteSpace (rev (trim s)) = false.
Proof.
  unfold trim, trimEnd. rewrite rev_involutive. apply dropWhile_head.
Qed.

Lemma trim_id s :
  headIs isWhiteSpace s = false -> headIs isWhiteSpace (rev s) = false ->
  trim s = s.
Proof.
  intros H1 H2. unfold trim. rewrite (trimStart_id _ H1). apply trimEnd_id, H2.
Qed.

Lemma trim_trim s : trim (trim s) = trim s.
Proof. apply trim_id; [apply trim_head | apply trim_last]. Qed.

(** ** The two replacements after one another *)
Lemma respace_unspace_respace s :
  single_spaced s -> no_space_before_punctuation s ->
  respace (unspace (respace s)) = respace s.
Proof.
  induction s as [| a | a d s IH1 IH2] using pairs_ind.
  - reflexivity.
  - intros _ _. simpl. rewrite andb_false_r.
    destruct (isWhiteSpace a); reflexivity.
  - intros [Ha [Hd Hs]] [Na [Nd Ns]].
    assert (Hds : single_spaced (d :: s)) by (split; assumption).
    assert (Nds : no_space_before_punctuation (d :: s))
      by (split; assumption).
    specialize (IH1 Hs Ns). specialize (IH2 Hds Nds).
    rewrite respace_two. destruct (isPunctuation a) eqn:Pa; simpl andb.
    + pose proof (punctuation_not_space _ Pa) as Wa.
      destruct (isWhiteSpace d) eqn:Wd; simpl negb; cbv iota;
        rewrite (unspace_keep _ _ Wa).
      * (* a mark, then a space that stays *)
        destruct (Hd eq_refl) as [-> Hh]. specialize (Nd eq_refl).
        rewrite (respace_plain 32%N) by reflexivity.
        rewrite unspace_space by (rewrite respace_head; exact Hh).
        rewrite respace_head, Nd.
        rewrite respace_before_space by reflexivity.
        rewrite respace_plain by reflexivity. rewrite IH1. reflexivity.
      * (* a mark, then a character: the space is put in *)
        rewrite unspace_space by exact Wd. simpl headIs.
        rewrite (unspace_keep _ _ Wd).
        destruct (isPunctuation d) eqn:Pd.
        -- rewrite (respace_insert _ _ _ Pa Wd), IH1. reflexivity.
        -- rewrite respace_before_space by reflexivity.
           rewrite respace_plain by reflexivity.
           rewrite (respace_plain _ _ Pd), IH1. reflexivity.
    + destruct (isWhiteSpace a) eqn:Wa.
      * (* a space: the next character is neither space nor mark *)
        destruct (Ha eq_refl) as [-> Hh]. specialize (Na eq_refl).
        rewrite unspace_space by (rewrite respace_head; exact Hh).
        rewrite respace_head, Na.
        rewrite respace_plain by reflexivity. rewrite IH2. reflexivity.
      * rewrite (unspace_keep _ _ Wa), (respace_plain _ _ Pa), IH2. reflexivity.
Qed.

(** C8. The clean-up of [formatAudioPenStyle] (white space collapsed to
    single spaces, no space before a punctuation mark, a space after
    one, the ends trimmed) changes nothing when it is done a second
    time. *)
Theorem cleanUp_idempotent (t : jsstring) : cleanUp (cleanUp t) = cleanUp t.
Proof.
  unfold cleanUp.
  set (r := replaceRuns isWhiteSpace (lit " ") t).
  assert (Hr : single_spaced r) by apply collapse_single_spaced.
  destruct (unspace_single_spaced r Hr) as [Ha Na].
  set (a := unspace r) in *.
  pose proof (respace_single_spaced a Ha) as Hb.
  pose proof (single_spaced_trim _ Hb) as Hc.
  unfold replaceRuns at 1.
  rewrite collapse_id; [| exact Hc | intros _; apply trim_head].
  rewrite (unspace_trim _ Hb).
  rewrite respace_trim by (apply unspace_single_spaced, Hb).
  rewrite trim_trim, (respace_unspace_respace a Ha Na). reflexivity.
Qed.

End CleanUp.

(* ================================================================== *)
(** * Titles                                                            *)
(* ================================================================== *)

Section Titles.

Lemma slice_prefix s n : slice s 0 (Z.of_nat n) = firstn n s.
Proof.
  unfold slice, relative_index. simpl.
  destruct (Z.ltb_spec (Z.of_nat n) 0); [lia|].
  replace (Z.to_nat (Z.min 0 (Z.of_nat (length s)))) with 0 by lia.
  rewrite Nat.sub_0_r. simpl.
  destruct (Nat.le_gt_cases n (length s)).
  - f_equal. lia.
  - replace (Z.to_nat (Z.min (Z.of_nat n) (Z.of_nat (length s))))
      with (length s) by lia.
    rewrite firstn_all, firstn_all2 by lia. reflexivity.
Qed.

Lemma dropWhile_length f (s : jsstring) : length (dropWhile f s) <= length s.
Proof.
  induction s as [|c s IH]; simpl; [lia|]. destruct (f c); simpl; lia.
Qed.

Lemma stripEnds_length f s : length (stripEnds f s) <= length s.
Proof.
  unfold stripEnds. rewrite length_rev.
  pose proof (dropWhile_length f (rev (dropWhile f s))) as H1.
  pose proof (dropWhile_length f s) as H2.
  rewrite length_rev in H1. lia.
Qed.

Lemma trim_length s : length (trim s) <= length s.
Proof.
  unfold trim, trimEnd, trimStart. rewrite length_rev.
  pose proof (dropWhile_length isWhiteSpace
                (rev (dropWhile isWhiteSpace s))) as H1.
  pose proof (dropWhile_length isWhiteSpace s) as H2.
  rewrite length_rev in H1. lia.
Qed.

Lemma replaceRuns_length f b inside s :
  length (replaceRuns_from f [b] inside s) <= length s.
Proof.
  revert inside. induction s as [|c s IH]; intros inside; simpl; [lia|].
  destruct (f c).
  - specialize (IH true). destruct inside; simpl; lia.
  - specialize (IH false). simpl. lia.
Qed.

Lemma replaceRuns_space_length f s :
  length (replaceRuns f (lit " ") s) <= length s.
Proof. apply (replaceRuns_length f 32%N false s). Qed.

Lemma sanitizeTitle_length t : length (sanitizeTitle t) <= length t.
Proof.
  unfold sanitizeTitle.
  eapply Nat.le_trans; [apply trim_length|].
  eapply Nat.le_trans; [apply stripEnds_length|].
  apply replaceRuns_space_length.
Qed.

Lemma Forall_dropWhile (P : code_unit -> Prop) f s :
  Forall P s -> Forall P (dropWhile f s).
Proof.
  induction 1 as [|c s Hc Hs IH]; simpl; [constructor|].
  destruct (f c); [exact IH | constructor; assumption].
Qed.

Lemma Forall_stripEnds (P : code_unit -> Prop) f s :
  Forall P s -> Forall P (stripEnds f s).
Proof.
  intros H. unfold stripEnds.
  apply Forall_rev, Forall_dropWhile, Forall_rev, Forall_dropWhile, H.
Qed.

Lemma Forall_trim (P : code_unit -> Prop) s :
  Forall P s -> Forall P (trim s).
Proof.
  intros H. unfold trim, trimEnd, trimStart.
  apply Forall_rev, Forall_dropWhile, Forall_rev, Forall_dropWhile, H.
Qed.

Lemma replaceRuns_clears f b inside s :
  f b = false ->
  Forall (fun c => f c = false) (replaceRuns_from f [b] inside s).
Proof.
  intros Hb. revert inside.
  induction s as [|c s IH]; intros inside; simpl; [constructor|].
  destruct (f c) eqn:E.
  - destruct inside; simpl; [apply IH | constructor; [exact Hb | apply IH]].
  - constructor; [exact E | apply IH].
Qed.

Lemma sanitizeTitle_one_line t :
  Forall (fun c => isLineBreak c = false) (sanitizeTitle t).
Proof.
  unfold sanitizeTitle. apply Forall_trim, Forall_stripEnds.
  apply replaceRuns_clears. reflexivity.
Qed.

Lemma stripEnds_head f s : headIs f (stripEnds f s) = false.
Proof.
  unfold stripEnds. pose proof (dropWhile_head f s) as H.
  destruct (dropWhile f s) as [|c d]; [reflexivity|]. simpl in H.
  simpl rev. rewrite dropWhile_snoc_keep by exact H.
  rewrite rev_app_distr. simpl. exact H.
Qed.

Lemma stripEnds_last f s : headIs f (rev (stripEnds f s)) = false.
Proof.
  unfold stripEnds. rewrite rev_involutive. apply dropWhile_head.
Qed.

Lemma headIs_weaken (f g : code_unit -> bool) s :
  (forall c, f c = true -> g c = true) ->
  headIs g s = false -> headIs f s = false.
Proof.
  intros Hfg. destruct s as [|c s]; [reflexivity|]. simpl. intros Hg.
  destruct (f c) eqn:E; [|reflexivity]. apply Hfg in E. congruence.
Qed.

Lemma space_is_quoteOrSpace c :
  isWhiteSpace c = true -> isQuoteOrSpace c = true.
Proof. intros H. unfold isQuoteOrSpace. rewrite H. apply orb_true_r. Qed.

Lemma sanitizeTitle_stripped t :
  sanitizeTitle t
  = stripEnds isQuoteOrSpace (replaceRuns isLineBreak (lit " ") t).
Proof.
  unfold sanitizeTitle. apply trim_id.
  - apply headIs_weaken with isQuoteOrSpace;
      [exact space_is_quoteOrSpace | apply stripEnds_head].
  - apply headIs_weaken with isQuoteOrSpace;
      [exact space_is_quoteOrSpace | apply stripEnds_last].
Qed.

Lemma sanitizeTitle_bare t :
  headIs isQuoteOrSpace (sanitizeTitle t) = false /\
  headIs isQuoteOrSpace (rev (sanitizeTitle t)) = false.
Proof.
  rewrite sanitizeTitle_stripped.
  split; [apply stripEnds_head | apply stripEnds_last].
Qed.

Lemma falsy_snoc s c : falsy (s ++ [c]) = false.
Proof. destruct s; reflexivity. Qed.

Lemma firstSentenceMatch_spec s :
  firstSentenceMatch s = upToFirstTerminator (dropWhile isTerminator s).
Proof. reflexivity. Qed.

(** The text handed to [sanitizeTitle] by the [catch] block. *)
Lemma fallbackTitle_spec source :
  let cleaned := collapsed source in
  let sentence :=
    trim (upToFirstTerminator (dropWhile isTerminator cleaned)) in
  fallbackTitle source
  = if falsy sentence then sanitizeTitle (firstn 60 cleaned)
    else titleOfSentence sentence.
Proof.
  cbv zeta. unfold fallbackTitle, titleOfSentence, collapsed.
  rewrite firstSentenceMatch_spec.
  set (sentence := trim (upToFirstTerminator _)).
  change 57%Z with (Z.of_nat 57). change 60%Z with (Z.of_nat 60).
  rewrite 2 slice_prefix.
  destruct (60 <? length sentence) eqn:E.
  - assert (Hs : falsy sentence = false)
      by (destruct sentence; [discriminate E | reflexivity]).
    rewrite Hs, falsy_snoc. reflexivity.
  - destruct (falsy sentence); reflexivity.
Qed.

Lemma firstn_short n (s : jsstring) : length (firstn n s) <= n.
Proof. rewrite length_firstn. apply Nat.le_min_l. Qed.

Lemma fallbackTitle_short source : length (fallbackTitle source) <= 60.
Proof.
  rewrite fallbackTitle_spec. cbv zeta.
  set (sentence := trim (upToFirstTerminator _)).
  destruct (falsy sentence).
  - eapply Nat.le_trans; [apply sanitizeTitle_length | apply firstn_short].
  - unfold titleOfSentence. destruct (Nat.ltb_spec 60 (length sentence)).
    + eapply Nat.le_trans; [apply sanitizeTitle_length|].
      rewrite length_app. change (length [8230%N]) with 1.
      pose proof (trim_length (firstn 57 sentence)) as H2.
      pose proof (firstn_short 57 sentence) as H3. lia.
    + eapply Nat.le_trans; [apply sanitizeTitle_length | assumption].
Qed.

Lemma fallbackTitle_sanitized source :
  exists t, fallbackTitle source = sanitizeTitle t.
Proof. unfold fallbackTitle. eexists. reflexivity. Qed.

Lemma settle_tryCatch (A : Type) remote (body handler : async A) :
  settle remote (tryCatch body handler)
  = match settle remote body with
    | Fulfilled a => Fulfilled a
    | Rejected => settle remote handler
    end.
Proof.
  induction body as [[a|] | call k IH]; simpl; try reflexivity. apply IH.
Qed.

(** C7, as the code has it. A text that is empty once trimmed gets the
    empty title, and the remote service is not asked. When the service
    fails, the title is made from the collapsed text: from its first run
    of characters other than [.], [!] and [?], with the terminator after
    it, trimmed (the first sentence, when the text does not begin with a
    terminator), cut to 57 characters, trimmed, and an ellipsis when it
    has more than 60; or, when the text has terminators only, from its
    first 60 characters. The title is then sanitised: it has at most 60
    characters, no line break, and neither begins nor ends with a quote
    or a white-space character. *)
Theorem generateTitle_fallback (text : jsstring)
  (remote : remote_call -> result jsstring) :
  (trim text = [] ->
   generateTitle text = ret [] /\ requests remote (generateTitle text) = [])
  /\
  (trim text <> [] ->
   remote (GenerateTitleWithDeepseek (trim text)) = Rejected ->
   let cleaned := collapsed (trim text) in
   let sentence :=
     trim (upToFirstTerminator (dropWhile isTerminator cleaned)) in
   let title :=
     if falsy sentence then sanitizeTitle (firstn 60 cleaned)
     else titleOfSentence sentence in
   settle remote (generateTitle text) = Fulfilled title /\
   (headIs isTerminator cleaned = false ->
    sentence = trim (upToFirstTerminator cleaned)) /\
   length title <= 60 /\
   Forall (fun c => isLineBreak c = false) title /\
   headIs isQuoteOrSpace title = false /\
   headIs isQuoteOrSpace (rev title) = false).
Proof.
  split.
  - intros E. unfold generateTitle. rewrite E. split; reflexivity.
  - intros Hne Hrej. cbv zeta.
    rewrite <- fallbackTitle_spec.
    split; [|split; [|split; [|split]]].
    + unfold generateTitle. destruct (trim text) eqn:E; [congruence|].
      simpl falsy. cbv iota. rewrite settle_tryCatch. simpl. rewrite Hrej.
      reflexivity.
    + intros Hh. rewrite (dropWhile_id _ _ Hh). reflexivity.
    + apply fallbackTitle_short.
    + destruct (fallbackTitle_sanitized (trim text)) as [t ->].
      apply sanitizeTitle_one_line.
    + destruct (fallbackTitle_sanitized (trim text)) as [t ->].
      apply sanitizeTitle_bare.
Qed.


Lemma generateTitle_fallback_witness :
  (trim (lit "   ") = [] /\
   generateTitle (lit "   ") = ret [] /\
   requests rejecting (generateTitle (lit "   ")) = []) /\
  (trim fridayNote <> [] /\
   rejecting (GenerateTitleWithDeepseek (trim fridayNote)) = Rejected /\
   headIs isTerminator (collapsed (trim fridayNote)) = false /\
   trim (upToFirstTerminator (collapsed (trim fridayNote)))
   = lit "um so basically we need to ship this by Friday." /\
   settle rejecting (generateTitle fridayNote)
   = Fulfilled (lit "um so basically we need to ship this by Friday.")).
Proof.
  split.
  - destruct (generateTitle_fallback (lit "   ") rejecting) as [H _].
    destruct (H eq_refl) as [H1 H2].
    split; [reflexivity | split; [exact H1 | exact H2]].
  - destruct (generateTitle_fallback fridayNote rejecting) as [_ H].
    assert (Hne : trim fridayNote <> []) by (vm_compute; discriminate).
    assert (Hh : headIs isTerminator (collapsed (trim fridayNote)) = false)
      by (vm_compute; reflexivity).
    destruct (H Hne eq_refl) as [E [Hfirst _]].
    split; [exact Hne | split; [reflexivity | split; [exact Hh | split]]].
    + rewrite <- (Hfirst Hh). vm_compute. reflexivity.
    + rewrite E. vm_compute. reflexivity.
Defined.

(** C7, as the specification words it, fails: for a text of question
    marks the title is the text, which is not its first sentence, with
    or without the terminator. *)
Lemma title_of_question_marks :
  settle rejecting (generateTitle (lit "???")) = Fulfilled (lit "???") /\
  titleOfSentence (trim (upToFirstTerminator (collapsed (trim (lit "???")))))
  = lit "?" /\
  titleOfSentence (trim (beforeFirstTerminator (collapsed (trim (lit "???")))))
  = [] /\
  settle rejecting (generateTitle (lit "???"))
  <> Fulfilled
       (titleOfSentence
          (trim (upToFirstTerminator (collapsed (trim (lit "???")))))) /\
  settle rejecting (generateTitle (lit "???"))
  <> Fulfilled
       (titleOfSentence
          (trim (beforeFirstTerminator (collapsed (trim (lit "???")))))).
Proof.
  repeat split; try (vm_compute; reflexivity); vm_compute; discriminate.
Qed.

End Titles.

(* ================================================================== *)
(** * The meeting style                                                 *)
(* ================================================================== *)

Section MeetingStyle.

Lemma appendEach_concat f items result :
  appendEach f items result = result ++ concat (List.map f items).
Proof.
  unfold appendEach. revert result.
  induction items as [|x items IH]; intros result; simpl.
  - rewrite app_nil_r. reflexivity.
  - rewrite IH, <- app_assoc. reflexivity.
Qed.

Lemma appendSection_labelled heading items item closing result :
  appendSection heading items item closing result
  = result ++ labelled heading item closing items.
Proof.
  unfold appendSection, labelled. destruct items as [|x items].
  - simpl. rewrite app_nil_r. reflexivity.
  - change (0 <? length (x :: items)) with true. cbv iota.
    rewrite appendEach_concat. repeat rewrite <- app_assoc. reflexivity.
Qed.

Lemma meetingSections_labelled b :
  meetingSections b
  = labelled "Key Discussion Points:" bulletLine newline (discussion b)
    ++ labelled "Action Items:" bulletLine newline (actionItems b)
    ++ labelled "Questions:" bulletLine newline (questions b)
    ++ labelled "Notes:" noteLine [] (other b).
Proof.
  unfold meetingSections. cbv zeta. repeat rewrite appendSection_labelled.
  simpl. repeat rewrite <- app_assoc. reflexivity.
Qed.

(** The arrays after the loop over [sentences], from any arrays. *)
Lemma classify_fold toLowerCase sentences :
  forall b0,
    let b := fold_left (classify toLowerCase) sentences b0 in
    questions b
    = questions b0 ++ filter (inBucket toLowerCase Question) sentences /\
    actionItems b
    = actionItems b0
      ++ List.map (removeLeadingWord pronouns)
           (filter (inBucket toLowerCase ActionItem) sentences) /\
    discussion b
    = discussion b0
      ++ filter (inBucket toLowerCase DiscussionPoint) sentences /\
    other b = other b0 ++ filter (inBucket toLowerCase Note) sentences.
Proof.
  induction sentences as [|s sentences IH]; intros b0; cbv zeta.
  - simpl. repeat rewrite app_nil_r. auto.
  - simpl fold_left. destruct (IH (classify toLowerCase b0 s))
      as [Hq [Ha [Hd Ho]]].
    rewrite Hq, Ha, Hd, Ho. clear IH Hq Ha Hd Ho.
    unfold classify, inBucket, bucketOf. cbn [filter].
    generalize (existsb (N.eqb 63) s)
               (testAnyWord actionItemWords (toLowerCase s))
               (testAnyWord discussionWords (toLowerCase s)).
    intros [|] [|] [|]; simpl; repeat rewrite <- app_assoc;
      repeat split; reflexivity.
Qed.

(** Every sentence is of one kind, so the filters share them out. *)
Lemma buckets_share_out toLowerCase sentences :
  length (filter (inBucket toLowerCase Question) sentences)
  + length (filter (inBucket toLowerCase ActionItem) sentences)
  + length (filter (inBucket toLowerCase DiscussionPoint) sentences)
  + length (filter (inBucket toLowerCase Note) sentences)
  = length sentences.
Proof.
  induction sentences as [|s sentences IH]; [reflexivity|].
  assert (Hcons : forall b,
    length (filter (inBucket toLowerCase b) (s :: sentences))
    = (if bucket_eqb (bucketOf toLowerCase s) b then 1 else 0)
      + length (filter (inBucket toLowerCase b) sentences)).
  { intros b. cbn [filter]. unfold inBucket at 1.
    destruct (bucket_eqb _ b); reflexivity. }
  rewrite 4 Hcons. cbn [length].
  destruct (bucketOf toLowerCase s); cbn [bucket_eqb]; lia.
Qed.

Lemma trim_starts_visible c s :
  isWhiteSpace c = false -> falsy (trim (c :: s)) = false.
Proof.
  intros H. unfold trim. rewrite trimStart_id by exact H.
  rewrite (trimEnd_cons_keep _ _ H). reflexivity.
Qed.

Lemma labelled_sections_visible d a q o :
  d <> [] \/ a <> [] \/ q <> [] \/ o <> [] ->
  falsy
    (trim (labelled "Key Discussion Points:" bulletLine newline d
           ++ labelled "Action Items:" bulletLine newline a
           ++ labelled "Questions:" bulletLine newline q
           ++ labelled "Notes:" noteLine [] o)) = false.
Proof.
  intros H.
  destruct d as [|d1 d]; [|apply trim_starts_visible; reflexivity].
  destruct a as [|a1 a]; [|apply trim_starts_visible; reflexivity].
  destruct q as [|q1 q]; [|apply trim_starts_visible; reflexivity].
  destruct o as [|o1 o]; [|apply trim_starts_visible; reflexivity].
  exfalso. destruct H as [H | [H | [H | H]]]; apply H; reflexivity.
Qed.


(** ** The tests and the sections in the words of the description *)

Lemma canonicalize_asciiLower c : canonicalize (asciiLower c) = canonicalize c.
Proof.
  unfold canonicalize, asciiLower.
  destruct ((65 <=? c) && (c <=? 90))%N eqn:E.
  - apply andb_true_iff in E. destruct E as [E1 E2].
    apply N.leb_le in E1, E2.
    replace ((97 <=? c + 32) && (c + 32 <=? 122))%N with true
      by (symmetry; apply andb_true_iff; split; apply N.leb_le; lia).
    replace ((97 <=? c) && (c <=? 122))%N with false
      by (symmetry; apply andb_false_iff; left; apply N.leb_gt; lia).
    lia.
  - reflexivity.
Qed.

Lemma asciiLower_canonicalize c : asciiLower (canonicalize c) = asciiLower c.
Proof.
  unfold canonicalize, asciiLower.
  destruct ((97 <=? c) && (c <=? 122))%N eqn:E.
  - apply andb_true_iff in E. destruct E as [E1 E2].
    apply N.leb_le in E1, E2.
    replace ((65 <=? c - 32) && (c - 32 <=? 90))%N with true
      by (symmetry; apply andb_true_iff; split; apply N.leb_le; lia).
    replace ((65 <=? c) && (c <=? 90))%N with false
      by (symmetry; apply andb_false_iff; right; apply N.leb_gt; lia).
    lia.
  - reflexivity.
Qed.

Lemma map_canonicalize_lower (s : jsstring) :
  List.map canonicalize (List.map asciiLower s) = List.map canonicalize s.
Proof.
  rewrite List.map_map. apply map_ext. exact canonicalize_asciiLower.
Qed.

Lemma map_lower_canonicalize (s : jsstring) :
  List.map asciiLower (List.map canonicalize s) = List.map asciiLower s.
Proof.
  rewrite List.map_map. apply map_ext. exact asciiLower_canonicalize.
Qed.

Lemma occurs_in_map (f : code_unit -> code_unit) t s :
  occurs_in t s -> occurs_in (List.map f t) (List.map f s).
Proof.
  intros [before [after ->]].
  exists (List.map f before), (List.map f after).
  repeat rewrite List.map_app. reflexivity.
Qed.

Lemma starts_map (f : code_unit -> code_unit) t s :
  starts t s -> starts (List.map f t) (List.map f s).
Proof.
  intros [after ->]. exists (List.map f after). apply List.map_app.
Qed.

Lemma bool_eq_iff (a b : bool) : (a = true <-> b = true) -> a = b.
Proof. destruct a, b; intros [H1 H2]; auto; symmetry; auto. Qed.

(** Comparing by the canonical form of the [i] flag is comparing with
    the ASCII letters lowered. *)
Lemma includes_ignoring_case (s w : jsstring) :
  includes (List.map canonicalize s) (List.map canonicalize w)
  = includes (List.map asciiLower s) (List.map asciiLower w).
Proof.
  apply bool_eq_iff. rewrite 2 includes_spec. split; intros H.
  - apply (occurs_in_map asciiLower) in H.
    rewrite 2 map_lower_canonicalize in H. exact H.
  - apply (occurs_in_map canonicalize) in H.
    rewrite 2 map_canonicalize_lower in H. exact H.
Qed.

Lemma startsWith_ignoring_case (s w : jsstring) :
  startsWith (List.map canonicalize s) (List.map canonicalize w)
  = startsWith (List.map asciiLower s) (List.map asciiLower w).
Proof.
  apply bool_eq_iff. rewrite 2 startsWith_spec. split; intros H.
  - apply (starts_map asciiLower) in H.
    rewrite 2 map_lower_canonicalize in H. exact H.
  - apply (starts_map canonicalize) in H.
    rewrite 2 map_canonicalize_lower in H. exact H.
Qed.

Lemma testAnyWord_contains words s :
  testAnyWord words s = existsb (containsIgnoringCase s) words.
Proof.
  unfold testAnyWord, containsIgnoringCase.
  induction words as [|w words IH]; [reflexivity|]. cbn [existsb].
  rewrite IH, includes_ignoring_case. reflexivity.
Qed.

Lemma questionMark_included (s : jsstring) :
  existsb (N.eqb 63) s = includes s (lit "?").
Proof.
  apply bool_eq_iff. rewrite includes_spec, existsb_exists. split.
  - intros [c [Hin Hc]]. apply N.eqb_eq in Hc. subst c.
    apply in_split in Hin. destruct Hin as [before [after ->]].
    exists before, after. reflexivity.
  - intros [before [after ->]]. exists 63%N. split; [|reflexivity].
    apply in_or_app. right. left. reflexivity.
Qed.

Lemma kindOf_bucketOf toLowerCase sentence :
  bucketOf toLowerCase sentence = kindOf toLowerCase sentence.
Proof.
  unfold bucketOf, kindOf.
  rewrite questionMark_included, 2 testAnyWord_contains. reflexivity.
Qed.

Lemma inBucket_ofKind toLowerCase kind sentences :
  filter (inBucket toLowerCase kind) sentences
  = ofKind toLowerCase kind sentences.
Proof.
  unfold ofKind. apply filter_ext. intros s. unfold inBucket.
  rewrite kindOf_bucketOf. reflexivity.
Qed.

Lemma removeLeadingWord_find words s :
  removeLeadingWord words s
  = match find (startsWithWord s) words with
    | Some word => dropWhile isWhiteSpace (skipn (length (lit word)) s)
    | None => s
    end.
Proof.
  induction words as [|w words IH]; [reflexivity|].
  cbn [removeLeadingWord find]. cbv zeta. unfold startsWithWord at 1.
  rewrite startsWith_ignoring_case.
  destruct (startsWith (List.map asciiLower s)
              (List.map asciiLower (lit w))
            && headIs isWhiteSpace (skipn (length (lit w)) s));
    [reflexivity | exact IH].
Qed.

Lemma removeLeadingWord_pronouns s :
  removeLeadingWord pronouns s = withoutLeadingPronoun s.
Proof. apply removeLeadingWord_find. Qed.

Lemma labelled_bulleted heading items :
  labelled heading bulletLine newline items
  = sectionOf heading bulletEntry [10%N] items.
Proof.
  unfold labelled, sectionOf. destruct items as [|x items]; [reflexivity|].
  rewrite (map_ext bulletLine bulletEntry); [reflexivity|].
  intros s. unfold bulletLine, bulletEntry, bullet.
  rewrite <- app_assoc. reflexivity.
Qed.

Lemma labelled_notes heading items :
  labelled heading noteLine [] items = sectionOf heading noteEntry [] items.
Proof.
  unfold labelled, sectionOf. destruct items as [|x items]; reflexivity.
Qed.

Lemma meetingText_labelled d a q o :
  trim (labelled "Key Discussion Points:" bulletLine newline d
        ++ labelled "Action Items:" bulletLine newline a
        ++ labelled "Questions:" bulletLine newline q
        ++ labelled "Notes:" noteLine [] o)
  = meetingText d a q o.
Proof.
  unfold meetingText.
  rewrite (labelled_bulleted "Key Discussion Points:" d),
    (labelled_bulleted "Action Items:" a),
    (labelled_bulleted "Questions:" q), (labelled_notes "Notes:" o).
  reflexivity.
Qed.

(** C6. [formatMeetingStyle] puts every sentence into one of four
    arrays by the first test that holds: a question mark in it; else a
    phrase of intent or task in its lower-cased text; else a phrase of
    discussion there; else none. An action item is kept without its
    leading pronoun. The arrays that are not empty are written as the
    sections Key Discussion Points, Action Items, Questions and Notes,
    in this order: bulleted lines in the first three, and in the last
    the sentences as they are, an empty line after each. The text of
    the three example sentences is sent to the meeting style and comes
    out as three sections of one sentence each; a sentence with the word
    agree and a closing remark come out as notes, after the question. *)
Theorem formatMeetingStyle_buckets (toLowerCase : jsstring -> jsstring) :
  (forall sentences,
      let b := fold_left (classify toLowerCase) sentences noBuckets in
      questions b = ofKind toLowerCase Question sentences /\
      actionItems b
      = List.map withoutLeadingPronoun
          (ofKind toLowerCase ActionItem sentences) /\
      discussion b = ofKind toLowerCase DiscussionPoint sentences /\
      other b = ofKind toLowerCase Note sentences /\
      length (ofKind toLowerCase Question sentences)
      + length (ofKind toLowerCase ActionItem sentences)
      + length (ofKind toLowerCase DiscussionPoint sentences)
      + length (ofKind toLowerCase Note sentences) = length sentences /\
      formatMeetingStyle toLowerCase sentences
      = meetingText
          (ofKind toLowerCase DiscussionPoint sentences)
          (List.map withoutLeadingPronoun
             (ofKind toLowerCase ActionItem sentences))
          (ofKind toLowerCase Question sentences)
          (ofKind toLowerCase Note sentences)) /\
  formatAudioPenStyle toLowerCase meetingNote
  = ret (formatMeetingStyle toLowerCase
           [budgetSentence; reportSentence; deadlineSentence]) /\
  (lowersAscii toLowerCase ->
   formatMeetingStyle toLowerCase
     [budgetSentence; reportSentence; deadlineSentence]
   = lit "Key Discussion Points:" ++ [10%N; 10%N]
     ++ [8226%N; 32%N] ++ lit "We discussed the budget." ++ [10%N; 10%N]
     ++ lit "Action Items:" ++ [10%N; 10%N]
     ++ [8226%N; 32%N] ++ lit "need to finalize the report by Friday."
     ++ [10%N; 10%N]
     ++ lit "Questions:" ++ [10%N; 10%N]
     ++ [8226%N; 32%N] ++ lit "Is the deadline fixed?" /\
   occurs_in (lit "Discussion Points:" ++ [10%N; 10%N; 8226%N; 32%N]
              ++ lit "We discussed the budget." ++ [10%N])
     (formatMeetingStyle toLowerCase
        [budgetSentence; reportSentence; deadlineSentence]) /\
   occurs_in (lit "Action Items:" ++ [10%N; 10%N; 8226%N; 32%N]
              ++ lit "need to finalize the report by Friday." ++ [10%N])
     (formatMeetingStyle toLowerCase
        [budgetSentence; reportSentence; deadlineSentence]) /\
   occurs_in (lit "Questions:" ++ [10%N; 10%N; 8226%N; 32%N]
              ++ lit "Is the deadline fixed?")
     (formatMeetingStyle toLowerCase
        [budgetSentence; reportSentence; deadlineSentence]) /\
   formatMeetingStyle toLowerCase
     [agreeSentence; deadlineSentence; thanksSentence]
   = lit "Questions:" ++ [10%N; 10%N]
     ++ [8226%N; 32%N] ++ lit "Is the deadline fixed?" ++ [10%N; 10%N]
     ++ lit "Notes:" ++ [10%N; 10%N]
     ++ lit "We agree on the budget." ++ [10%N; 10%N]
     ++ lit "Thanks everyone.").
Proof.
  split; [|split].
  - intros sentences. cbv zeta.
    destruct (classify_fold toLowerCase sentences noBuckets)
      as [Hq [Ha [Hd Ho]]].
    simpl in Hq, Ha, Hd, Ho.
    rewrite inBucket_ofKind in Hq, Ha, Hd, Ho.
    rewrite (map_ext (removeLeadingWord pronouns) withoutLeadingPronoun
               removeLeadingWord_pronouns) in Ha.
    pose proof (buckets_share_out toLowerCase sentences) as Hsum.
    rewrite 4 inBucket_ofKind in Hsum.
    split; [exact Hq | split; [exact Ha | split; [exact Hd |
      split; [exact Ho | split; [exact Hsum|]]]]].
    destruct sentences as [|s0 rest]; [reflexivity|].
    unfold formatMeetingStyle. cbv zeta.
    rewrite meetingSections_labelled, Hq, Ha, Hd, Ho.
    rewrite labelled_sections_visible; [apply meetingText_labelled|].
    destruct (ofKind toLowerCase DiscussionPoint (s0 :: rest));
      [|left; discriminate].
    destruct (ofKind toLowerCase ActionItem (s0 :: rest));
      [|right; left; discriminate].
    destruct (ofKind toLowerCase Question (s0 :: rest));
      [|right; right; left; discriminate].
    destruct (ofKind toLowerCase Note (s0 :: rest));
      [|right; right; right; discriminate].
    simpl in Hsum. discriminate Hsum.
  - cbv - [formatMeetingStyle formatListStyle formatNaturalStyle].
    reflexivity.
  - intros Hl.
    assert (E : formatMeetingStyle toLowerCase
                  [budgetSentence; reportSentence; deadlineSentence]
                = lit "Key Discussion Points:" ++ [10%N; 10%N]
                  ++ [8226%N; 32%N] ++ lit "We discussed the budget."
                  ++ [10%N; 10%N]
                  ++ lit "Action Items:" ++ [10%N; 10%N]
                  ++ [8226%N; 32%N]
                  ++ lit "need to finalize the report by Friday."
                  ++ [10%N; 10%N]
                  ++ lit "Questions:" ++ [10%N; 10%N]
                  ++ [8226%N; 32%N] ++ lit "Is the deadline fixed?").
    { unfold formatMeetingStyle. cbn [fold_left]. unfold classify.
      rewrite (Hl budgetSentence eq_refl), (Hl reportSentence eq_refl),
        (Hl deadlineSentence eq_refl).
      vm_compute. reflexivity. }
    rewrite E. split; [reflexivity|].
    split; [apply includes_spec; vm_compute; reflexivity|].
    split; [apply includes_spec; vm_compute; reflexivity|].
    split; [apply includes_spec; vm_compute; reflexivity|].
    unfold formatMeetingStyle. cbn [fold_left]. unfold classify.
    rewrite (Hl agreeSentence eq_refl), (Hl deadlineSentence eq_refl),
      (Hl thanksSentence eq_refl).
    vm_compute. reflexivity.
Qed.

Lemma formatMeetingStyle_buckets_witness :
  lowersAscii (List.map asciiLower) /\
  formatMeetingStyle (List.map asciiLower)
    [budgetSentence; reportSentence; deadlineSentence]
  = lit "Key Discussion Points:" ++ [10%N; 10%N]
    ++ [8226%N; 32%N] ++ lit "We discussed the budget." ++ [10%N; 10%N]
    ++ lit "Action Items:" ++ [10%N; 10%N]
    ++ [8226%N; 32%N] ++ lit "need to finalize the report by Friday."
    ++ [10%N; 10%N]
    ++ lit "Questions:" ++ [10%N; 10%N]
    ++ [8226%N; 32%N] ++ lit "Is the deadline fixed?" /\
  formatMeetingStyle (List.map asciiLower)
    [agreeSentence; deadlineSentence; thanksSentence]
  = meetingText [] [] [deadlineSentence] [agreeSentence; thanksSentence].
Proof.
  assert (Hl : lowersAscii (List.map asciiLower))
    by (intros s _; reflexivity).
  destruct (formatMeetingStyle_buckets (List.map asciiLower))
    as [Hall [_ Hex]].
  destruct (Hex Hl) as [Hfirst _].
  split; [exact Hl | split; [exact Hfirst|]].
  destruct (Hall [agreeSentence; deadlineSentence; thanksSentence])
    as [_ [_ [_ [_ [_ Hout]]]]].
  rewrite Hout. vm_compute. reflexivity.
Defined.

(** C6, as the specification words it, fails: a sentence that says
    agree, which is of the phrasing of discussion, and has no question
    mark and no phrase of intent or task in it, is written as a note and
    not as a discussion point. The code looks for the word agreed. *)
Lemma agree_is_written_as_note :
  containsIgnoringCase (List.map asciiLower agreeSentence) "agree" = true /\
  includes agreeSentence (lit "?") = false /\
  existsb (containsIgnoringCase (List.map asciiLower agreeSentence))
    intentPhrases = false /\
  formatMeetingStyle (List.map asciiLower) [agreeSentence]
  = lit "Notes:" ++ [10%N; 10%N] ++ lit "We agree on the budget." /\
  ~ occurs_in (lit "Discussion Points")
      (formatMeetingStyle (List.map asciiLower) [agreeSentence]).
Proof.
  split; [vm_compute; reflexivity|].
  split; [vm_compute; reflexivity|].
  split; [vm_compute; reflexivity|].
  split; [vm_compute; reflexivity|].
  apply includes_false. vm_compute. reflexivity.
Qed.

End MeetingStyle.

(* ================================================================== *)
(** * The entry point                                                   *)
(* ================================================================== *)

Section EntryPoint.

Lemma formatAudioPenStyle_returns toLowerCase text :
  exists formatted, formatAudioPenStyle toLowerCase text = ret formatted.
Proof.
  unfold formatAudioPenStyle. cbv zeta.
  repeat match goal with
         | |- context [if ?c then _ else _] => destruct c
         end; eexists; reflexivity.
Qed.

(** C5. Whatever the remote service answers, [formatWithAI] is fulfilled
    with a string: the text of the service when it answers; else the
    text of the middle tier when that one returns; else [formatBasic] of
    the raw text. The middle tier of the sources, [formatAudioPenStyle],
    always returns. The empty string, one character and a text without
    terminator come back as they are when the service fails. *)
Theorem formatWithAI_always_returns (toLowerCase : jsstring -> jsstring)
  (remote : remote_call -> result jsstring) (rawText : jsstring) :
  (forall heuristic : jsstring -> async jsstring,
      settle remote (formatWithAI_over heuristic rawText)
      = Fulfilled
          match remote (FormatWithDeepseek rawText) with
          | Fulfilled formatted => formatted
          | Rejected =>
              match settle remote (heuristic rawText) with
              | Fulfilled formatted => formatted
              | Rejected => formatBasic rawText
              end
          end) /\
  (exists formatted,
      formatAudioPenStyle toLowerCase rawText = ret formatted /\
      settle remote (formatWithAI toLowerCase rawText)
      = Fulfilled
          match remote (FormatWithDeepseek rawText) with
          | Fulfilled fromRemote => fromRemote
          | Rejected => formatted
          end) /\
  settle rejecting (formatWithAI toLowerCase []) = Fulfilled [] /\
  settle rejecting (formatWithAI toLowerCase (lit "x"))
  = Fulfilled (lit "x") /\
  settle rejecting (formatWithAI toLowerCase (lit "no punctuation here"))
  = Fulfilled (lit "no punctuation here").
Proof.
  assert (Hover : forall heuristic : jsstring -> async jsstring,
    settle remote (formatWithAI_over heuristic rawText)
    = Fulfilled
        match remote (FormatWithDeepseek rawText) with
        | Fulfilled formatted => formatted
        | Rejected =>
            match settle remote (heuristic rawText) with
            | Fulfilled formatted => formatted
            | Rejected => formatBasic rawText
            end
        end).
  { intros heuristic. unfold formatWithAI_over.
    rewrite settle_tryCatch. simpl.
    destruct (remote (FormatWithDeepseek rawText)); [reflexivity|].
    rewrite settle_tryCatch.
    destruct (settle remote (heuristic rawText)); reflexivity. }
  split; [exact Hover | split; [|repeat split; vm_compute; reflexivity]].
  destruct (formatAudioPenStyle_returns toLowerCase rawText) as [f Hf].
  exists f. split; [exact Hf|].
  unfold formatWithAI. rewrite Hover, Hf. reflexivity.
Qed.

End EntryPoint.

(* ================================================================== *)
(** * The other examples of the specification                          *)
(* ================================================================== *)

Section Examples.

Variable toLowerCase : jsstring -> jsstring.

(** Seven short sentences, no word of a meeting: seven bullets, in the
    order of the sentences. *)
Example seven_sentences_seven_bullets :
  formatAudioPenStyle toLowerCase
    (lit "one. two. three. four. five. six. seven.")
  = ret (join newline
           (List.map (fun s => bullet (lit s))
              ["one."; "two."; "three."; "four."; "five."; "six.";
               "seven."]%string)).
Proof. vm_compute. reflexivity. Qed.

(** The last resort bullets what is between the terminators. *)
Example formatBasic_bullets :
  formatBasic (lit "a.b!! c?")
  = bullet (lit "a") ++ newline ++ bullet (lit "b") ++ newline
    ++ bullet (lit "c").
Proof. reflexivity. Qed.

(** A fragment sent again after the text went on is dropped, and a text
    sent again with more at its end replaces the buffer. *)
Example updates_in_a_row :
  RecordingPage.run
    (List.map RecordingPage.TranscriptUpdate
       [Some (lit "hello wor"); None; Some (lit "world peace");
        Some (lit "world"); Some (lit "hello world peace now")])
    []
  = lit "hello world peace now".
Proof. reflexivity. Qed.

End Examples.

(* ================================================================== *)
(** * The reconciler: lengths and repeated fragments                    *)
(* ================================================================== *)

Section ReconcilerMore.
Import RecordingPage.

Ltac merge_cases p i :=
  destruct (mergeTranscripts_branch p i) as
    [Hi | Hi Hp | Hi Hp Hsup | Hi Hp Hsup Hsub | k Hi Hp Hsup Hsub Ho Hmax
    | Hi Hp Hsup Hsub Hno].

Lemma merge_of_contained p i :
  occurs_in i p -> mergeTranscripts p i = p.
Proof.
  intros H. merge_cases p i; try reflexivity; try contradiction.
  - subst p. symmetry. apply occurs_antisym; [apply occurs_nil | exact H].
  - apply occurs_antisym; assumption.
Qed.

Lemma incoming_occurs_in_merged p i : occurs_in i (mergeTranscripts p i).
Proof.
  destruct (includes p i) eqn:E.
  - apply includes_spec in E. rewrite (merge_of_contained _ _ E). exact E.
  - apply includes_false in E. apply ends_occurs, merged_ends_with_incoming, E.
Qed.

(** X1. The buffer is left as it is exactly when the fragment is already
    in it; so a fragment that is delivered a second time changes
    nothing. *)
Theorem merge_repeated_fragment (previous incoming : jsstring) :
  streq (mergeTranscripts previous incoming) previous
  = includes previous incoming /\
  mergeTranscripts (mergeTranscripts previous incoming) incoming
  = mergeTranscripts previous incoming.
Proof.
  split; [|apply merge_of_contained, incoming_occurs_in_merged].
  destruct (includes previous incoming) eqn:E.
  - apply includes_spec in E. apply streq_spec, merge_of_contained, E.
  - apply includes_false in E.
    destruct (streq _ previous) eqn:Es; [|reflexivity].
    apply streq_spec in Es. exfalso. apply E. rewrite <- Es.
    apply incoming_occurs_in_merged.
Qed.

Lemma separator_short p : length (separator p) <= 1.
Proof. unfold separator. destruct (endsWith p (lit " ")); simpl; lia. Qed.

Lemma merge_length previous incoming :
  length previous <= length (mergeTranscripts previous incoming) /\
  length incoming <= length (mergeTranscripts previous incoming) /\
  length (mergeTranscripts previous incoming)
  <= length previous + length incoming + 1.
Proof.
  merge_cases previous incoming.
  - subst. simpl. lia.
  - subst. simpl. lia.
  - apply occurs_length in Hsup. lia.
  - apply occurs_length in Hsub. lia.
  - destruct Ho as [H1 [H2 [H3 _]]]. rewrite length_app, length_skipn. lia.
  - pose proof (separator_short previous).
    repeat rewrite length_app. lia.
Qed.

(** X2. The merged text is at least as long as each of the two texts and
    at most as long as both and one separating space. *)
Theorem merge_length_bounds (previous incoming : jsstring) :
  Nat.max (length previous) (length incoming)
  <= length (mergeTranscripts previous incoming)
  <= length previous + length incoming + 1.
Proof. pose proof (merge_length previous incoming). lia. Qed.

(** X3. A merge either keeps [previous] as the start of the buffer, or
    puts in its place an [incoming] that contains it. *)
Theorem merge_extends_or_replaces (previous incoming : jsstring) :
  starts previous (mergeTranscripts previous incoming) \/
  (mergeTranscripts previous incoming = incoming /\
   occurs_in previous incoming).
Proof.
  merge_cases previous incoming.
  - left. exists []. rewrite app_nil_r. reflexivity.
  - right. split; [reflexivity | subst; apply occurs_nil].
  - right. split; [reflexivity | exact Hsup].
  - left. exists []. rewrite app_nil_r. reflexivity.
  - left. exists (skipn k incoming). reflexivity.
  - left. exists (separator previous ++ incoming). reflexivity.
Qed.

(** X4. Along any updates the buffer grows, for each update, by at most
    the length of its text and one. *)
Theorem buffer_length_bound (updates : list (option jsstring)) :
  forall buffer,
    length (run (List.map TranscriptUpdate updates) buffer)
    <= length buffer + list_sum (List.map updateCost updates).
Proof.
  induction updates as [|u updates IH]; intros buffer; simpl.
  - lia.
  - eapply Nat.le_trans; [apply IH|].
    pose proof (merge_length buffer (or_empty u)) as [_ [_ H]].
    unfold updateCost. lia.
Qed.

End ReconcilerMore.

(* ================================================================== *)
(** * The heuristic structurer: what it keeps of the text               *)
(* ================================================================== *)

Section Structurer.

Lemma visible_app a b : visible (a ++ b) = visible a ++ visible b.
Proof. apply filter_app. Qed.

Lemma visible_rev s : visible (rev s) = rev (visible s).
Proof. unfold visible. apply filter_rev. Qed.

Lemma visible_cons c s :
  visible (c :: s) = if isWhiteSpace c then visible s else c :: visible s.
Proof. unfold visible. simpl. destruct (isWhiteSpace c); reflexivity. Qed.

Lemma visible_dropWhile s : visible (dropWhile isWhiteSpace s) = visible s.
Proof.
  induction s as [|c s IH]; [reflexivity|]. cbn [dropWhile].
  destruct (isWhiteSpace c) eqn:E; [|reflexivity].
  rewrite visible_cons, E. exact IH.
Qed.

Lemma visible_trim s : visible (trim s) = visible s.
Proof.
  unfold trim, trimEnd, trimStart.
  rewrite visible_rev, visible_dropWhile, visible_rev, rev_involutive.
  apply visible_dropWhile.
Qed.

Lemma visible_collapse inside s :
  visible (replaceRuns_from isWhiteSpace (lit " ") inside s) = visible s.
Proof.
  revert inside. induction s as [|c s IH]; intros inside; [reflexivity|].
  cbn [replaceRuns_from]. rewrite visible_cons.
  destruct (isWhiteSpace c) eqn:E.
  - rewrite visible_app, IH. destruct inside; reflexivity.
  - rewrite visible_cons, E, IH. reflexivity.
Qed.

Lemma visible_unspace s :
  visible (removeSpaceBeforePunctuation s) = visible s.
Proof.
  induction s as [|c s IH]; [reflexivity|].
  cbn [removeSpaceBeforePunctuation]. rewrite visible_cons.
  destruct (isWhiteSpace c) eqn:E; cbn [andb].
  - destruct (headIs isPunctuation (dropWhile isWhiteSpace s));
      [|rewrite visible_cons, E]; exact IH.
  - rewrite visible_cons, E, IH. reflexivity.
Qed.

Lemma visible_respace s :
  visible (addSpaceAfterPunctuation s) = visible s.
Proof.
  induction s as [| a | a d s IH1 IH2] using pairs_ind; try reflexivity.
  rewrite respace_two.
  destruct (isPunctuation a && negb (isWhiteSpace d)).
  - rewrite (visible_cons a (32%N :: _)), (visible_cons 32%N), (visible_cons d).
    rewrite (visible_cons a (d :: s)), (visible_cons d s), IH1. reflexivity.
  - rewrite visible_cons, IH2, (visible_cons a). reflexivity.
Qed.

Lemma visible_cleanUp text : visible (cleanUp text) = visible text.
Proof.
  unfold cleanUp, replaceRuns.
  rewrite visible_trim, visible_respace, visible_unspace.
  apply visible_collapse.
Qed.

Lemma cleanUp_single_spaced text : single_spaced (cleanUp text).
Proof.
  unfold cleanUp. apply single_spaced_trim, respace_single_spaced.
  apply unspace_single_spaced, collapse_single_spaced.
Qed.

(** X5. The clean-up changes white space only: the other characters of
    the text come out as they went in, in their order. What comes out
    has single spaces for white space and none at its ends. *)
Theorem cleanUp_normal_form (text : jsstring) :
  visible (cleanUp text) = visible text /\
  single_spaced (cleanUp text) /\ trimmed (cleanUp text).
Proof.
  split; [apply visible_cleanUp | split; [apply cleanUp_single_spaced|]].
  unfold cleanUp. split; [apply trim_head | apply trim_last].
Qed.

Lemma visible_concat_split s :
  forall piece afterEnd inSeparator,
    (inSeparator = true -> piece = []) ->
    visible (concat (splitSentences_from piece afterEnd inSeparator s))
    = visible (piece ++ s).
Proof.
  induction s as [|c s IH]; intros piece afterEnd inSeparator Hsep.
  - simpl. rewrite app_nil_r. reflexivity.
  - cbn [splitSentences_from].
    destruct (isWhiteSpace c) eqn:E.
    + rewrite visible_app, visible_cons, E.
      destruct inSeparator; [|destruct afterEnd].
      * rewrite (Hsep eq_refl). apply IH. reflexivity.
      * cbn [concat]. rewrite visible_app, IH by reflexivity. reflexivity.
      * rewrite IH by discriminate.
        rewrite <- app_assoc, 2 visible_app. cbn [app].
        rewrite visible_cons, E. reflexivity.
    + rewrite IH by discriminate. rewrite <- app_assoc. reflexivity.
Qed.

Lemma visible_concat_sentences pieces :
  visible (concat (filter (fun s => 0 <? length s) (List.map trim pieces)))
  = visible (concat pieces).
Proof.
  induction pieces as [|p pieces IH]; [reflexivity|].
  cbn [List.map filter concat]. rewrite visible_app, <- IH, <- (visible_trim p).
  destruct (trim p); cbn [length Nat.ltb Nat.leb concat];
    [reflexivity | rewrite visible_app; reflexivity].
Qed.

Lemma sentences_visible cleaned :
  visible (concat (sentencesOf cleaned)) = visible cleaned.
Proof.
  unfold sentencesOf, splitSentences.
  rewrite visible_concat_sentences. apply visible_concat_split. discriminate.
Qed.

Lemma trimmed_trim s : trimmed (trim s).
Proof. split; [apply trim_head | apply trim_last]. Qed.

Lemma sentences_trimmed cleaned :
  Forall (fun s => s <> [] /\ trimmed s) (sentencesOf cleaned).
Proof.
  unfold sentencesOf. apply Forall_forall. intros x Hx.
  apply filter_In in Hx. destruct Hx as [Hin Hlen].
  apply in_map_iff in Hin. destruct Hin as [p [<- _]].
  split; [|apply trimmed_trim]. intros E. rewrite E in Hlen. discriminate.
Qed.

Lemma visible_nonblank text : trim text <> [] -> visible text <> [].
Proof.
  intros H. rewrite <- visible_trim. pose proof (trim_head text) as Hh.
  destruct (trim text) as [|c r]; [congruence|]. simpl in Hh.
  rewrite visible_cons, Hh. discriminate.
Qed.

Lemma sentences_exist text :
  trim text <> [] -> sentencesOf (cleanUp text) <> [].
Proof.
  intros H E. apply (visible_nonblank text H).
  rewrite <- visible_cleanUp, <- sentences_visible, E. reflexivity.
Qed.

Lemma split_nonempty s :
  forall piece afterEnd inSeparator,
    splitSentences_from piece afterEnd inSeparator s <> [].
Proof.
  induction s as [|c s IH]; intros piece afterEnd inSeparator;
    cbn [splitSentences_from]; [discriminate|].
  destruct (isWhiteSpace c); [|apply IH].
  destruct inSeparator; [apply IH|].
  destruct afterEnd; [discriminate | apply IH].
Qed.

Lemma removelast_cons (A : Type) (x : A) l :
  l <> [] -> removelast (x :: l) = x :: removelast l.
Proof. destruct l; [congruence | reflexivity]. Qed.

Lemma endsSentence_snoc piece c :
  isTerminator c = true -> endsSentence (piece ++ [c]).
Proof. intros H. unfold endsSentence. rewrite rev_app_distr. exact H. Qed.

Lemma split_ends s :
  forall piece afterEnd inSeparator,
    (afterEnd = true -> endsSentence piece) ->
    Forall endsSentence
      (removelast (splitSentences_from piece afterEnd inSeparator s)).
Proof.
  induction s as [|c s IH]; intros piece afterEnd inSeparator Hend;
    cbn [splitSentences_from]; [constructor|].
  destruct (isWhiteSpace c).
  - destruct inSeparator; [apply IH; discriminate|].
    destruct afterEnd; [|apply IH; discriminate].
    rewrite removelast_cons by apply split_nonempty.
    constructor; [apply Hend; reflexivity | apply IH; discriminate].
  - apply IH. apply endsSentence_snoc.
Qed.

Lemma terminator_not_space c :
  isTerminator c = true -> isWhiteSpace c = false.
Proof.
  intros H. apply punctuation_not_space. unfold isPunctuation.
  unfold isTerminator in H. repeat rewrite orb_true_iff in *. tauto.
Qed.

Lemma endsSentence_trim x :
  endsSentence x -> endsSentence (trim x) /\ trim x <> [].
Proof.
  unfold endsSentence. intros H. destruct (rev x) as [|t r] eqn:E;
    [discriminate|]. simpl in H.
  assert (Ex : x = rev r ++ [t]).
  { rewrite <- (rev_involutive x), E. reflexivity. }
  pose proof (terminator_not_space _ H) as Ht.
  assert (Et : trim x = dropWhile isWhiteSpace (rev r) ++ [t]).
  { rewrite Ex. unfold trim, trimStart.
    rewrite dropWhile_snoc_keep by exact Ht.
    apply trimEnd_snoc_keep, Ht. }
  rewrite Et, rev_app_distr. split; [exact H|].
  destruct (dropWhile isWhiteSpace (rev r)); discriminate.
Qed.

Lemma sentences_end pieces :
  Forall endsSentence (removelast pieces) ->
  Forall endsSentence
    (removelast
       (filter (fun s => 0 <? length s) (List.map trim pieces))).
Proof.
  induction pieces as [|x [|y r] IH]; intros H.
  - constructor.
  - cbn [List.map filter]. destruct (0 <? length (trim x)); constructor.
  - rewrite removelast_cons in H by discriminate.
    inversion H as [|x' l' Hx Hr]; subst.
    destruct (endsSentence_trim x Hx) as [Hx' Hne].
    specialize (IH Hr).
    change (List.map trim (x :: y :: r))
      with (trim x :: List.map trim (y :: r)).
    cbn [filter].
    assert (Hlen : (0 <? length (trim x)) = true).
    { destruct (trim x); [congruence | reflexivity]. }
    rewrite Hlen.
    destruct (filter (fun s => 0 <? length s) (List.map trim (y :: r)))
      as [|z zs]; [constructor|].
    rewrite removelast_cons by discriminate.
    constructor; assumption.
Qed.

Lemma sentences_split_after_terminators cleaned :
  Forall endsSentence (removelast (sentencesOf cleaned)).
Proof.
  unfold sentencesOf, splitSentences. apply sentences_end, split_ends.
  discriminate.
Qed.

Lemma formatAudioPenStyle_styles (toLowerCase : jsstring -> jsstring)
  (text : jsstring) :
  (trim text = [] -> formatAudioPenStyle toLowerCase text = ret text) /\
  (trim text <> [] ->
   let cleaned := cleanUp text in
   let sentences := sentencesOf cleaned in
   sentences <> [] /\
   formatAudioPenStyle toLowerCase text
   = ret match styleOf cleaned with
         | MeetingStyle => formatMeetingStyle toLowerCase sentences
         | ListStyle => formatListStyle sentences
         | NaturalStyle => formatNaturalStyle toLowerCase sentences
         end).
Proof.
  split.
  - intros E. unfold formatAudioPenStyle. rewrite E.
    rewrite orb_true_r. reflexivity.
  - intros Hne. cbv zeta.
    pose proof (sentences_exist text Hne) as Hs. split; [exact Hs|].
    unfold formatAudioPenStyle, styleOf. cbv zeta.
    change (filter (fun s => 0 <? length s)
              (List.map trim (splitSentences (cleanUp text))))
      with (sentencesOf (cleanUp text)).
    assert (Ht : falsy text || falsy (trim text) = false).
    { destruct text; [exfalso; apply Hne; reflexivity|].
      destruct (trim (c :: text)); [congruence | reflexivity]. }
    rewrite Ht.
    assert (Hl : (length (sentencesOf (cleanUp text)) =? 0) = false).
    { destruct (sentencesOf (cleanUp text)); [congruence | reflexivity]. }
    change (@length (list code_unit) (sentencesOf (cleanUp text)))
      with (@length jsstring (sentencesOf (cleanUp text))).
    rewrite Hl.
    destruct (testAnyWord meetingWords (cleanUp text)
              && (testAnyWord actionWords (cleanUp text)
                  || testAnyWord listWords (cleanUp text)));
      [reflexivity|].
    destruct (testAnyWord listWords (cleanUp text)
              || (5 <? length (sentencesOf (cleanUp text)))); reflexivity.
Qed.

(** X6. A text that is blank is returned as it is. Any other text has
    at least one sentence, so that the clean text is never returned in
    place of a style, and it goes to the style that its words and the
    number of its sentences select. *)
Theorem formatAudioPenStyle_dispatch (toLowerCase : jsstring -> jsstring)
  (text : jsstring) :
  (trim text = [] -> formatAudioPenStyle toLowerCase text = ret text) /\
  (trim text <> [] ->
   let cleaned := cleanUp text in
   let sentences := sentencesOf cleaned in
   sentences <> [] /\
   formatAudioPenStyle toLowerCase text
   = ret match styleOf cleaned with
         | MeetingStyle => formatMeetingStyle toLowerCase sentences
         | ListStyle => formatListStyle sentences
         | NaturalStyle => formatNaturalStyle toLowerCase sentences
         end).
Proof. apply formatAudioPenStyle_styles. Qed.

Lemma formatAudioPenStyle_dispatch_witness :
  (trim (lit "  ") = [] /\
   formatAudioPenStyle (List.map asciiLower) (lit "  ") = ret (lit "  "))
  /\
  (trim (lit "It works. But slowly.") <> [] /\
   formatAudioPenStyle (List.map asciiLower) (lit "It works. But slowly.")
   = ret (lit "It works." ++ newline ++ newline ++ lit "But slowly.")).
Proof.
  split.
  - destruct (formatAudioPenStyle_dispatch (List.map asciiLower) (lit "  "))
      as [H _].
    split; [reflexivity | exact (H eq_refl)].
  - destruct (formatAudioPenStyle_dispatch (List.map asciiLower)
                (lit "It works. But slowly.")) as [_ H].
    assert (Hne : trim (lit "It works. But slowly.") <> [])
      by (vm_compute; discriminate).
    split; [exact Hne|]. destruct (H Hne) as [_ E]. rewrite E.
    vm_compute. reflexivity.
Defined.

(** X7. The sentences of a text hold its characters other than white
    space, all of them and in their order; each is non-empty and has no
    white space at its ends; and each but the last ends with [.], [!]
    or [?]. *)
Theorem sentences_of_text (text : jsstring) :
  let sentences := sentencesOf (cleanUp text) in
  visible (concat sentences) = visible text /\
  Forall (fun s => s <> [] /\ trimmed s) sentences /\
  Forall endsSentence (removelast sentences).
Proof.
  cbv zeta. split; [|split].
  - rewrite sentences_visible. apply visible_cleanUp.
  - apply sentences_trimmed.
  - apply sentences_split_after_terminators.
Qed.

Section Natural.
Variable toLowerCase : jsstring -> jsstring.

Lemma noTopicChange_snoc l a b :
  noTopicChangeInside toLowerCase (l ++ [a]) ->
  isTopicChange toLowerCase a b = false ->
  noTopicChangeInside toLowerCase (l ++ [a; b]).
Proof.
  induction l as [|x [|y l] IH]; intros H Hab.
  - simpl. auto.
  - simpl in *. destruct H as [H _]. auto.
  - destruct H as [Hxy H]. split; [exact Hxy | apply IH; assumption].
Qed.

Lemma natural_loop sentences :
  forall cp result,
    sentences <> [] -> length cp <= 3 ->
    noTopicChangeInside toLowerCase (cp ++ firstn 1 sentences) ->
    exists x groups,
      x <> [] /\
      formatNaturalStyle_loop toLowerCase sentences result cp
      = result ++ concat (List.map paragraph ((cp ++ x) :: groups)) /\
      concat ((cp ++ x) :: groups) = cp ++ sentences /\
      Forall (fun g => 1 <= length g <= 4
                       /\ noTopicChangeInside toLowerCase g)
        ((cp ++ x) :: groups) /\
      breaksJustified toLowerCase ((cp ++ x) :: groups).
Proof.
  induction sentences as [|s rest IH]; intros cp result Hne Hlen Hin;
    [congruence|].
  cbn [formatNaturalStyle_loop]. cbv zeta.
  destruct rest as [|n rest'].
  - (* the last sentence *)
    rewrite orb_true_r. exists [s], []. cbn [firstn] in Hin.
    split; [discriminate|]. split; [|split; [|split]].
    + simpl. rewrite app_nil_r. reflexivity.
    + simpl. rewrite app_nil_r. reflexivity.
    + constructor; [|constructor]. rewrite length_app. simpl.
      split; [lia | exact Hin].
    + exact I.
  - rewrite orb_false_r. cbn [firstn] in Hin.
    destruct ((4 <=? length (cp ++ [s]))
              || isTopicChange toLowerCase s n) eqn:Eb.
    + (* a break after [s] *)
      destruct (IH [] (result ++ join (lit " ") (cp ++ [s])
                         ++ newline ++ newline))
        as [x [groups [Hx [Hloop [Hcat [Hall Hj]]]]]];
        [discriminate | simpl; lia | exact I |].
      exists [s], (x :: groups). change ([] ++ x) with x in *.
      change ([] ++ n :: rest') with (n :: rest') in *.
      split; [discriminate|]. split; [|split; [|split]].
      * rewrite Hloop. cbn [List.map concat].
        change (paragraph (cp ++ [s]))
          with (join (lit " ") (cp ++ [s]) ++ newline ++ newline).
        repeat rewrite <- app_assoc. reflexivity.
      * cbn [concat] in *. rewrite Hcat, <- app_assoc. reflexivity.
      * constructor; [|exact Hall]. rewrite length_app. simpl.
        split; [lia | exact Hin].
      * split; [|exact Hj]. rewrite last_last.
        assert (Hhd : hd [] x = n).
        { cbn [concat] in Hcat. destruct x; [congruence|].
          simpl in Hcat. injection Hcat as -> _. reflexivity. }
        rewrite Hhd. apply orb_true_iff in Eb. destruct Eb as [E4 | Et].
        -- left. apply Nat.leb_le in E4. rewrite length_app in *.
           simpl in *. lia.
        -- right. exact Et.
    + (* the paragraph goes on *)
      apply orb_false_iff in Eb. destruct Eb as [E4 Et].
      apply Nat.leb_gt in E4.
      destruct (IH (cp ++ [s]) result)
        as [x [groups [Hx [Hloop [Hcat [Hall Hj]]]]]];
        [discriminate | lia | |].
      { cbn [firstn]. rewrite <- app_assoc.
        apply noTopicChange_snoc; assumption. }
      exists (s :: x), groups.
      replace (cp ++ s :: x) with ((cp ++ [s]) ++ x)
        by (rewrite <- app_assoc; reflexivity).
      replace (cp ++ s :: n :: rest') with ((cp ++ [s]) ++ n :: rest')
        by (rewrite <- app_assoc; reflexivity).
      split; [discriminate|]. auto.
Qed.

Lemma formatNaturalStyle_groups sentences :
  exists groups,
    formatNaturalStyle toLowerCase sentences
    = trim (concat (List.map paragraph groups)) /\
    concat groups = sentences /\
    Forall (fun g => 1 <= length g <= 4
                     /\ noTopicChangeInside toLowerCase g) groups /\
    breaksJustified toLowerCase groups.
Proof.
  destruct sentences as [|s rest].
  - exists []. repeat split; constructor.
  - destruct (natural_loop (s :: rest) [] [])
      as [x [groups [_ [Hloop [Hcat [Hall Hj]]]]]];
      [discriminate | simpl; lia | exact I |].
    exists (x :: groups). unfold formatNaturalStyle.
    rewrite Hloop. auto.
Qed.

End Natural.

Lemma visible_join_space g :
  visible (join (lit " ") g) = visible (concat g).
Proof.
  induction g as [|a [|b g] IH]; [reflexivity | |].
  - simpl. rewrite app_nil_r. reflexivity.
  - change (join (lit " ") (a :: b :: g))
      with (a ++ lit " " ++ join (lit " ") (b :: g)).
    cbn [concat]. rewrite 3 visible_app, IH. reflexivity.
Qed.

Lemma visible_paragraphs groups :
  visible (concat (List.map paragraph groups))
  = visible (concat (concat groups)).
Proof.
  induction groups as [|g groups IH]; [reflexivity|].
  cbn [List.map concat].
  change (paragraph g) with (join (lit " ") g ++ newline ++ newline).
  rewrite concat_app, 4 visible_app, visible_join_space, IH.
  change (visible newline) with (@nil code_unit).
  cbn [app]. rewrite app_nil_r. reflexivity.
Qed.

(** X8. The natural style cuts the sentences into paragraphs: groups of
    one to four sentences that follow one another, with no change of
    topic inside a group, and a new group only after four sentences or
    before a change of topic. Each group is written with single spaces
    between its sentences and an empty line after it. *)
Theorem formatNaturalStyle_paragraphs (toLowerCase : jsstring -> jsstring)
  (sentences : list jsstring) :
  exists groups,
    formatNaturalStyle toLowerCase sentences
    = trim (concat (List.map paragraph groups)) /\
    concat groups = sentences /\
    Forall (fun g => 1 <= length g <= 4
                     /\ noTopicChangeInside toLowerCase g) groups /\
    breaksJustified toLowerCase groups.
Proof. apply formatNaturalStyle_groups. Qed.

Lemma visible_natural toLowerCase sentences :
  visible (formatNaturalStyle toLowerCase sentences)
  = visible (concat sentences).
Proof.
  destruct (formatNaturalStyle_groups toLowerCase sentences)
    as [groups [E [Hcat _]]].
  rewrite E, visible_trim, visible_paragraphs, Hcat. reflexivity.
Qed.

(** X9. In the natural style nothing of the text is lost or added but
    white space. *)
Theorem natural_style_keeps_text (toLowerCase : jsstring -> jsstring)
  (text : jsstring) :
  (forall sentences,
      visible (formatNaturalStyle toLowerCase sentences)
      = visible (concat sentences)) /\
  (trim text <> [] -> styleOf (cleanUp text) = NaturalStyle ->
   exists formatted,
     formatAudioPenStyle toLowerCase text = ret formatted /\
     visible formatted = visible text).
Proof.
  split; [apply visible_natural|]. intros Hne Hstyle.
  destruct (formatAudioPenStyle_styles toLowerCase text) as [_ H].
  destruct (H Hne) as [_ E]. rewrite Hstyle in E.
  eexists. split; [exact E|].
  rewrite visible_natural, sentences_visible. apply visible_cleanUp.
Qed.

Lemma natural_style_keeps_text_witness :
  trim (lit "It works.  But slowly.") <> [] /\
  styleOf (cleanUp (lit "It works.  But slowly.")) = NaturalStyle /\
  exists formatted,
    formatAudioPenStyle (List.map asciiLower) (lit "It works.  But slowly.")
    = ret formatted /\
    visible formatted = visible (lit "It works.  But slowly.").
Proof.
  assert (Hne : trim (lit "It works.  But slowly.") <> [])
    by (vm_compute; discriminate).
  assert (Hs : styleOf (cleanUp (lit "It works.  But slowly."))
               = NaturalStyle) by (vm_compute; reflexivity).
  split; [exact Hne | split; [exact Hs|]].
  destruct (natural_style_keeps_text (List.map asciiLower)
              (lit "It works.  But slowly.")) as [_ H].
  exact (H Hne Hs).
Defined.

Lemma splitLines_line line l :
  noLineFeed l -> forall rest,
  splitLines_from line (l ++ rest) = splitLines_from (line ++ l) rest.
Proof.
  intros H. revert line. induction H as [|c l Hc Hl IH]; intros line rest.
  - rewrite app_nil_r. reflexivity.
  - cbn [app splitLines_from]. rewrite Hc, IH, <- app_assoc. reflexivity.
Qed.

Lemma splitLines_join lines :
  lines <> [] -> Forall noLineFeed lines ->
  splitLines (join newline lines) = lines.
Proof.
  unfold splitLines. induction lines as [|a [|b lines] IH]; intros Hne H.
  - congruence.
  - inversion H; subst. cbn [join].
    rewrite <- (app_nil_r a) at 1.
    rewrite splitLines_line by assumption. reflexivity.
  - inversion H as [|? ? Ha Hrest]; subst.
    change (join newline (a :: b :: lines))
      with (a ++ newline ++ join newline (b :: lines)).
    rewrite splitLines_line by assumption.
    cbn [app newline splitLines_from N.eqb]. simpl N.eqb. cbv iota.
    rewrite IH by (discriminate || assumption). reflexivity.
Qed.

Lemma single_spaced_noLineFeed s : single_spaced s -> noLineFeed s.
Proof.
  induction s as [|c s IH]; intros H; [constructor|].
  destruct H as [Hc Hs]. constructor; [|apply IH, Hs].
  destruct (N.eqb_spec c 10) as [->|]; [|reflexivity].
  destruct (Hc eq_refl) as [E _]. discriminate E.
Qed.

Lemma Forall_split (P : code_unit -> Prop) s :
  forall piece afterEnd inSeparator,
    Forall P (piece ++ s) ->
    Forall (Forall P) (splitSentences_from piece afterEnd inSeparator s).
Proof.
  induction s as [|c s IH]; intros piece afterEnd inSeparator H;
    cbn [splitSentences_from].
  - rewrite app_nil_r in H. constructor; [exact H | constructor].
  - apply Forall_app in H. destruct H as [Hp Hcs].
    inversion Hcs as [|? ? Hc Hs]; subst.
    assert (Hnext : Forall P ((piece ++ [c]) ++ s)).
    { rewrite <- app_assoc. apply Forall_app. split; [exact Hp | exact Hcs]. }
    destruct (isWhiteSpace c); [|apply IH, Hnext].
    destruct inSeparator; [apply IH; exact Hs|].
    destruct afterEnd; [|apply IH, Hnext].
    constructor; [exact Hp | apply IH; exact Hs].
Qed.

Lemma sentences_noLineFeed text :
  Forall noLineFeed (sentencesOf (cleanUp text)).
Proof.
  unfold sentencesOf. apply Forall_forall. intros x Hx.
  apply filter_In in Hx. destruct Hx as [Hin _].
  apply in_map_iff in Hin. destruct Hin as [p [<- Hp]].
  apply Forall_trim.
  assert (Hall : Forall noLineFeed (splitSentences (cleanUp text))).
  { apply Forall_split. apply single_spaced_noLineFeed.
    unfold cleanUp. apply single_spaced_trim, respace_single_spaced.
    apply unspace_single_spaced, collapse_single_spaced. }
  rewrite Forall_forall in Hall. apply Hall, Hp.
Qed.

Lemma removeListMarker_kept (P : code_unit -> Prop) s :
  Forall P s -> Forall P (removeListMarker s).
Proof.
  destruct s as [|c s]; [auto|]. intros H. simpl.
  destruct (isListMarker c); [|exact H].
  inversion H; subst. apply Forall_dropWhile. assumption.
Qed.

Lemma listLine_noLineFeed s : noLineFeed s -> noLineFeed (listLine s).
Proof.
  intros H. unfold listLine, bullet, noLineFeed.
  repeat constructor. apply Forall_trim, removeListMarker_kept, H.
Qed.

Lemma listLine_listLine s : listLine (listLine s) = listLine s.
Proof.
  unfold listLine at 1 2. unfold bullet at 2.
  change (removeListMarker ([8226%N; 32%N] ++ trim (removeListMarker s)))
    with (dropWhile isWhiteSpace (trim (removeListMarker s))).
  rewrite dropWhile_id by apply trim_head. rewrite trim_trim. reflexivity.
Qed.

(** X10. The list style writes one line for each sentence, in order, the
    bullet first: cutting its text at the line feeds gives the lines
    back, the sentences of a cleaned text having no line feed. A line
    that is put through the list style again is not given a second
    bullet. *)
Theorem formatListStyle_lines :
  (forall sentences,
      sentences <> [] -> Forall noLineFeed sentences ->
      splitLines (formatListStyle sentences) = List.map listLine sentences)
  /\
  (forall text, Forall noLineFeed (sentencesOf (cleanUp text))) /\
  (forall sentences,
      formatListStyle (List.map listLine sentences)
      = formatListStyle sentences).
Proof.
  split; [|split].
  - intros sentences Hne H. unfold formatListStyle.
    change (fun s => bullet (trim (removeListMarker s))) with listLine.
    apply splitLines_join.
    + destruct sentences; [congruence | discriminate].
    + apply Forall_forall. intros x Hx. apply in_map_iff in Hx.
      destruct Hx as [y [<- Hy]]. apply listLine_noLineFeed.
      rewrite Forall_forall in H. apply H, Hy.
  - exact sentences_noLineFeed.
  - intros sentences. unfold formatListStyle.
    change (fun s => bullet (trim (removeListMarker s))) with listLine.
    rewrite List.map_map. f_equal. apply map_ext. intros s.
    apply listLine_listLine.
Qed.

Lemma formatListStyle_lines_witness :
  [lit "- eggs"; lit "milk"] <> [] /\
  Forall noLineFeed [lit "- eggs"; lit "milk"] /\
  splitLines (formatListStyle [lit "- eggs"; lit "milk"])
  = [bullet (lit "eggs"); bullet (lit "milk")].
Proof.
  assert (Hne : [lit "- eggs"; lit "milk"] <> []) by discriminate.
  assert (Hn : Forall noLineFeed [lit "- eggs"; lit "milk"]).
  { repeat constructor. }
  split; [exact Hne | split; [exact Hn|]].
  destruct formatListStyle_lines as [H _].
  rewrite (H _ Hne Hn). reflexivity.
Defined.

Lemma Forall_splitOnTerminators (P : code_unit -> Prop) s :
  forall piece inSeparator,
    Forall P piece ->
    Forall (fun c => isTerminator c = false -> P c) s ->
    Forall (Forall P) (splitOnTerminators_from piece inSeparator s).
Proof.
  induction s as [|c s IH]; intros piece inSeparator Hp Hs;
    cbn [splitOnTerminators_from].
  - constructor; [exact Hp | constructor].
  - inversion Hs as [|? ? Hc Hrest]; subst.
    destruct (isTerminator c) eqn:E.
    + destruct inSeparator; [apply IH; [constructor | exact Hrest]|].
      constructor; [exact Hp | apply IH; [constructor | exact Hrest]].
    + apply IH; [|exact Hrest]. apply Forall_app. split; [exact Hp|].
      constructor; [apply Hc; reflexivity | constructor].
Qed.

Lemma Forall_join (P : code_unit -> Prop) sep parts :
  Forall P sep -> Forall (Forall P) parts -> Forall P (join sep parts).
Proof.
  intros Hsep H. induction parts as [|a [|b parts] IH].
  - constructor.
  - inversion H; subst. assumption.
  - inversion H as [|? ? Ha Hrest]; subst.
    change (join sep (a :: b :: parts))
      with (a ++ sep ++ join sep (b :: parts)).
    apply Forall_app. split; [exact Ha|]. apply Forall_app.
    split; [exact Hsep | apply IH, Hrest].
Qed.

Lemma dropWhile_all f (s : jsstring) :
  Forall (fun c => f c = true) s -> dropWhile f s = [].
Proof.
  induction 1 as [|c s Hc Hs IH]; [reflexivity|]. simpl. rewrite Hc.
  exact IH.
Qed.

Lemma trim_blank s :
  Forall (fun c => isWhiteSpace c = true) s -> trim s = [].
Proof.
  intros H. unfold trim, trimStart. rewrite (dropWhile_all _ _ H).
  reflexivity.
Qed.

(** X11. The last resort writes none of [.], [!] and [?]; and of a text
    that has nothing but those and white space it makes the empty
    string. *)
Theorem formatBasic_drops_terminators :
  (forall text, Forall (fun c => isTerminator c = false) (formatBasic text))
  /\
  (forall text, onlySpaceAndTerminators text -> formatBasic text = []).
Proof.
  split.
  - intros text. unfold formatBasic. apply Forall_join.
    + repeat constructor.
    + apply Forall_forall. intros x Hx. apply in_map_iff in Hx.
      destruct Hx as [p [<- Hp]]. apply filter_In in Hp.
      destruct Hp as [Hp _]. unfold bullet.
      repeat constructor. apply Forall_trim.
      assert (Hall : Forall (Forall (fun c => isTerminator c = false))
                       (splitOnTerminators text)).
      { apply Forall_splitOnTerminators; [constructor|].
        apply Forall_forall. auto. }
      rewrite Forall_forall in Hall. apply Hall, Hp.
  - intros text H. unfold formatBasic.
    assert (Hall : Forall (Forall (fun c => isWhiteSpace c = true))
                     (splitOnTerminators text)).
    { apply Forall_splitOnTerminators; [constructor|].
      eapply Forall_impl; [|exact H]. intros c Hc Ht. simpl in Hc.
      rewrite Ht, orb_false_r in Hc. exact Hc. }
    assert (Hf : filter (fun s => 0 <? length (trim s))
                   (splitOnTerminators text) = []).
    { induction Hall as [|p ps Hp Hps IH]; [reflexivity|].
      cbn [filter]. rewrite (trim_blank _ Hp). exact IH. }
    rewrite Hf. reflexivity.
Qed.

Lemma formatBasic_drops_terminators_witness :
  onlySpaceAndTerminators (lit " ... ?! ") /\ formatBasic (lit " ... ?! ") = [].
Proof.
  assert (H : onlySpaceAndTerminators (lit " ... ?! ")).
  { repeat constructor. }
  split; [exact H|]. destruct formatBasic_drops_terminators as [_ G].
  exact (G _ H).
Defined.

Lemma replaceRuns_id f by_ s :
  Forall (fun c => f c = false) s ->
  forall inside, replaceRuns_from f by_ inside s = s.
Proof.
  induction 1 as [|c s Hc Hs IH]; intros inside; [reflexivity|].
  cbn [replaceRuns_from]. rewrite Hc, IH. reflexivity.
Qed.

Lemma stripEnds_id f s :
  headIs f s = false -> headIs f (rev s) = false -> stripEnds f s = s.
Proof.
  intros H1 H2. unfold stripEnds.
  rewrite (dropWhile_id _ _ H1), (dropWhile_id _ _ H2).
  apply rev_involutive.
Qed.

Lemma sanitizeTitle_again t : sanitizeTitle (sanitizeTitle t) = sanitizeTitle t.
Proof.
  rewrite (sanitizeTitle_stripped (sanitizeTitle t)).
  unfold replaceRuns.
  rewrite replaceRuns_id by apply sanitizeTitle_one_line.
  apply stripEnds_id; apply sanitizeTitle_bare.
Qed.

(** X12. A sanitised title, whatever it is made from, has no line break,
    neither begins nor ends with a quote or white space, is no longer
    than what it is made from, and is left as it is by a second
    sanitising. *)
Theorem sanitizeTitle_normal_form (title : jsstring) :
  Forall (fun c => isLineBreak c = false) (sanitizeTitle title) /\
  headIs isQuoteOrSpace (sanitizeTitle title) = false /\
  headIs isQuoteOrSpace (rev (sanitizeTitle title)) = false /\
  length (sanitizeTitle title) <= length title /\
  sanitizeTitle (sanitizeTitle title) = sanitizeTitle title.
Proof.
  split; [apply sanitizeTitle_one_line|].
  split; [apply sanitizeTitle_bare|].
  split; [apply sanitizeTitle_bare|].
  split; [apply sanitizeTitle_length | apply sanitizeTitle_again].
Qed.

(** X13. [generateTitle] is always fulfilled: with the empty title for a
    blank text, with the sanitised title of the service when it gives
    one, with the fallback title when it fails. It asks the service at
    most once, with the trimmed text; and in every case the title has no
    line break and no quote or white space at its ends. *)
Theorem generateTitle_outcomes (text : jsstring)
  (remote : remote_call -> result jsstring) :
  let title :=
    if falsy (trim text) then []
    else match remote (GenerateTitleWithDeepseek (trim text)) with
         | Fulfilled fromRemote => sanitizeTitle fromRemote
         | Rejected => fallbackTitle (trim text)
         end in
  settle remote (generateTitle text) = Fulfilled title /\
  requests remote (generateTitle text)
  = (if falsy (trim text) then []
     else [GenerateTitleWithDeepseek (trim text)]) /\
  Forall (fun c => isLineBreak c = false) title /\
  headIs isQuoteOrSpace title = false /\
  headIs isQuoteOrSpace (rev title) = false.
Proof.
  cbv zeta. unfold generateTitle. cbv zeta.
  destruct (falsy (trim text)).
  - repeat split; constructor.
  - unfold generateTitleWithDeepseek, request.
    cbn [bind tryCatch settle requests].
    destruct (remote (GenerateTitleWithDeepseek (trim text))) as [t|].
    + cbn [bind tryCatch settle requests].
      split; [reflexivity | split; [reflexivity|]].
      split; [apply sanitizeTitle_one_line | apply sanitizeTitle_bare].
    + cbn [bind tryCatch settle requests]. unfold ret. cbn [settle requests].
      split; [reflexivity | split; [reflexivity|]].
      destruct (fallbackTitle_sanitized (trim text)) as [t ->].
      split; [apply sanitizeTitle_one_line | apply sanitizeTitle_bare].
Qed.

(** X14. [formatWithAI] asks the service once, with the raw text as it
    is, whatever the answer: the two local tiers ask nothing. *)
Theorem formatWithAI_one_request (toLowerCase : jsstring -> jsstring)
  (remote : remote_call -> result jsstring) (rawText : jsstring) :
  requests remote (formatWithAI toLowerCase rawText)
  = [FormatWithDeepseek rawText].
Proof.
  unfold formatWithAI, formatWithAI_over, formatWithDeepseek, request.
  cbn [bind tryCatch requests].
  destruct (remote (FormatWithDeepseek rawText)) as [t|];
    cbn [bind tryCatch requests]; [reflexivity|].
  destruct (formatAudioPenStyle_returns toLowerCase rawText) as [f ->].
  reflexivity.
Qed.
End Structurer.

(* ================================================================== *)
(** * The wrappers of the remote service and the clock                  *)
(* ================================================================== *)

Section Fences.

Lemma startsWith_app a b : startsWith (a ++ b) a = true.
Proof. apply startsWith_spec. exists b. reflexivity. Qed.

Lemma dropWhile_run f (l : jsstring) c r :
  Forall (fun x => f x = true) l -> f c = false ->
  dropWhile f (l ++ c :: r) = c :: r.
Proof.
  intros Hl Hc. induction Hl as [|x l Hx Hl IH]; simpl.
  - rewrite Hc. reflexivity.
  - rewrite Hx. exact IH.
Qed.

Lemma removeOpeningFence_fenced language rest :
  Forall (fun c => isWordChar c = true) language ->
  removeOpeningFence (fence ++ language ++ newline ++ rest) = rest.
Proof.
  intros H. unfold removeOpeningFence. rewrite startsWith_app.
  change (skipn 3 (fence ++ language ++ newline ++ rest))
    with (language ++ 10%N :: rest).
  rewrite dropWhile_run by (exact H || reflexivity). reflexivity.
Qed.

Lemma removeClosingFence_fenced body :
  removeClosingFence (body ++ newline ++ fence) = body.
Proof.
  unfold removeClosingFence.
  assert (E : endsWith (body ++ newline ++ fence) (newline ++ fence) = true).
  { apply endsWith_spec. exists body. reflexivity. }
  rewrite E, length_app.
  replace (length body + length (newline ++ fence) - 4) with (length body + 0)
    by (simpl; lia).
  rewrite firstn_app_2. simpl. apply app_nil_r.
Qed.

Lemma stripFences_fenced language body :
  Forall (fun c => isWordChar c = true) language ->
  stripFences (fenced language body) = trim body.
Proof.
  intros H. unfold stripFences, fenced.
  rewrite (removeOpeningFence_fenced _ _ H), removeClosingFence_fenced.
  reflexivity.
Qed.

Lemma trim_fenced language body :
  trim (fenced language body) = fenced language body.
Proof.
  apply trim_id; [reflexivity|]. unfold fenced.
  repeat rewrite rev_app_distr. reflexivity.
Qed.

(** X15. An answer of the service that is wrapped in a code fence, with
    or without the name of a language, comes out of both wrappers as
    what is inside the fence, trimmed; for the title wrapper also when
    nothing is inside, although it rejects an answer that is blank. An
    answer with no fence at its ends comes out trimmed and otherwise as
    it is. What either wrapper is fulfilled with has no white space at
    its ends. *)
Theorem deepseek_fences_unwrapped :
  (forall language body,
      Forall (fun c => isWordChar c = true) language ->
      formatWithDeepseek_outcome
        (Answer true (Some (fenced language body)))
      = Fulfilled (trim body) /\
      generateTitleWithDeepseek_outcome
        (Answer true (Some (fenced language body)))
      = Fulfilled (trim body)) /\
  (forall content,
      startsWith (trim content) fence = false ->
      endsWith (trim content) (newline ++ fence) = false ->
      formatWithDeepseek_outcome (Answer true (Some content))
      = Fulfilled (trim content)) /\
  (forall answer formatted,
      formatWithDeepseek_outcome answer = Fulfilled formatted
      \/ generateTitleWithDeepseek_outcome answer = Fulfilled formatted ->
      trimmed formatted).
Proof.
  split; [|split].
  - intros language body H.
    unfold formatWithDeepseek_outcome, generateTitleWithDeepseek_outcome.
    cbv zeta. rewrite trim_fenced, (stripFences_fenced _ _ H).
    split; reflexivity.
  - intros content Ho Hc. unfold formatWithDeepseek_outcome. cbv zeta.
    unfold stripFences, removeOpeningFence. rewrite Ho.
    unfold removeClosingFence. rewrite Hc, trim_trim. reflexivity.
  - intros answer formatted [H | H];
      destruct answer as [|[|] [content|]]; try discriminate H.
    + injection H as <-. unfold stripFences.
      split; [apply trim_head | apply trim_last].
    + unfold generateTitleWithDeepseek_outcome in H. cbv zeta in H.
      destruct (falsy (trim content)); [discriminate H|].
      injection H as <-. unfold stripFences.
      split; [apply trim_head | apply trim_last].
Qed.

Lemma deepseek_fences_unwrapped_witness :
  (Forall (fun c => isWordChar c = true) (lit "markdown") /\
   formatWithDeepseek_outcome
     (Answer true (Some (fenced (lit "markdown") (lit " Notes. "))))
   = Fulfilled (lit "Notes.") /\
   generateTitleWithDeepseek_outcome (Answer true (Some (fenced [] [])))
   = Fulfilled []) /\
  (startsWith (trim (lit " Notes. ")) fence = false /\
   endsWith (trim (lit " Notes. ")) (newline ++ fence) = false /\
   formatWithDeepseek_outcome (Answer true (Some (lit " Notes. ")))
   = Fulfilled (lit "Notes.")) /\
  (generateTitleWithDeepseek_outcome (Answer true (Some (lit " A title ")))
   = Fulfilled (lit "A title") /\
   trimmed (lit "A title")).
Proof.
  destruct deepseek_fences_unwrapped as [Hfenced [Hplain Htrimmed]].
  assert (Hw : Forall (fun c => isWordChar c = true) (lit "markdown"))
    by (repeat constructor).
  split; [|split].
  - split; [exact Hw|].
    destruct (Hfenced (lit "markdown") (lit " Notes. ") Hw) as [E _].
    destruct (Hfenced [] [] (Forall_nil _)) as [_ E'].
    split; [exact E | exact E'].
  - assert (Ho : startsWith (trim (lit " Notes. ")) fence = false)
      by reflexivity.
    assert (Hc : endsWith (trim (lit " Notes. ")) (newline ++ fence)
                 = false) by reflexivity.
    split; [exact Ho | split; [exact Hc|]].
    exact (Hplain (lit " Notes. ") Ho Hc).
  - assert (E : generateTitleWithDeepseek_outcome
                  (Answer true (Some (lit " A title ")))
                = Fulfilled (lit "A title")) by reflexivity.
    split; [exact E|]. exact (Htrimmed _ _ (or_intror E)).
Defined.
End Fences.

Section Clock.

Lemma readDigits_digits u : readDigits (digits u) = Some u.
Proof. induction u; simpl; try rewrite IHu; reflexivity. Qed.

Lemma digits_no_colon u :
  Forall (fun c => negb (isColon c) = true) (digits u).
Proof. induction u; simpl; constructor; (reflexivity || assumption). Qed.

Lemma toString_nonempty n : toString n <> [].
Proof.
  unfold toString. intros E.
  assert (Hu : N.to_uint n = Decimal.Nil).
  { destruct (N.to_uint n); (reflexivity || discriminate E). }
  pose proof (Unsigned.of_to n) as H. rewrite Hu in H. simpl in H.
  subst n. discriminate Hu.
Qed.

Lemma readDigits_zeros k s u :
  readDigits s = Some u ->
  exists u', readDigits (repeat (48%N : code_unit) k ++ s) = Some u'
             /\ N.of_uint u' = N.of_uint u.
Proof.
  intros H. induction k as [|k [u' [E Hu']]].
  - exists u. auto.
  - exists (Decimal.D0 u'). simpl. rewrite E. auto.
Qed.

Lemma readNumber_digits s :
  s <> [] -> readNumber s = option_map N.of_uint (readDigits s).
Proof. destruct s; [congruence | reflexivity]. Qed.

Lemma readNumber_padded n :
  readNumber (padStart 2 48%N (toString n)) = Some n.
Proof.
  unfold padStart.
  destruct (readDigits_zeros (2 - length (toString n)) (toString n)
              (N.to_uint n) (readDigits_digits _)) as [u' [E Hu']].
  rewrite readNumber_digits.
  - rewrite E. simpl. rewrite Hu'. f_equal. apply Unsigned.of_to.
  - intros Es. apply app_eq_nil in Es. destruct Es as [_ Es].
    exact (toString_nonempty n Es).
Qed.

Lemma padded_no_colon n :
  Forall (fun c => negb (isColon c) = true) (padStart 2 48%N (toString n)).
Proof.
  unfold padStart. apply Forall_app. split.
  - apply Forall_forall. intros x Hx. apply repeat_spec in Hx. subst x.
    reflexivity.
  - apply digits_no_colon.
Qed.

Lemma takeWhile_run f (l : jsstring) c r :
  Forall (fun x => f x = true) l -> f c = false ->
  takeWhile f (l ++ c :: r) = l.
Proof.
  intros Hl Hc. induction Hl as [|x l Hx Hl IH]; simpl.
  - rewrite Hc. reflexivity.
  - rewrite Hx, IH. reflexivity.
Qed.

Lemma toString_width n :
  (n < 100)%N -> length (toString n) <= 2.
Proof.
  intros H.
  assert (Hall : forallb (fun k => length (toString (N.of_nat k)) <=? 2)
                   (seq 0 100) = true) by (vm_compute; reflexivity).
  rewrite forallb_forall in Hall.
  specialize (Hall (N.to_nat n)). rewrite N2Nat.id in Hall.
  apply Nat.leb_le, Hall, in_seq. lia.
Qed.

Lemma toString_narrow n :
  length (toString n) <= 2 -> (n < 100)%N.
Proof.
  intros H. pose proof (Unsigned.of_to n) as E. unfold toString in H.
  destruct (N.to_uint n) as [|u|u|u|u|u|u|u|u|u|u]; subst n;
    try (vm_compute; reflexivity);
    (destruct u as [|u|u|u|u|u|u|u|u|u|u];
     try (vm_compute; reflexivity);
     (destruct u; [vm_compute; reflexivity | simpl in H; lia ..])).
Qed.

Lemma padStart_length target fill s :
  length (padStart target fill s) = Nat.max target (length s).
Proof. unfold padStart. rewrite length_app, repeat_length. lia. Qed.

(** X17. The clock text of a count of seconds reads back as that count:
    minutes, a colon, seconds, each of two digits at least, so that no
    two counts are shown alike. The text has five characters up to
    ninety-nine minutes and fifty-nine seconds, and more after that. *)
Theorem formatTime_read_back (seconds : N) :
  (seconds <= maxSafeInteger)%N ->
  readTime (formatTime seconds) = Some seconds /\
  5 <= length (formatTime seconds) /\
  ((seconds < 6000)%N <-> length (formatTime seconds) = 5).
Proof.
  intros _. unfold formatTime. cbv zeta.
  set (m := padStart 2 48%N (toString (seconds / 60))).
  set (n := padStart 2 48%N (toString (seconds mod 60))).
  assert (Hn : length n = 2).
  { unfold n. rewrite padStart_length.
    assert (Hlt : (seconds mod 60 < 100)%N).
    { pose proof (N.mod_lt seconds 60). lia. }
    pose proof (toString_width _ Hlt). lia. }
  assert (Hm : 2 <= length m)
    by (unfold m; rewrite padStart_length; lia).
  split; [|split].
  - unfold readTime. change (lit ":") with [58%N]. cbn [app].
    rewrite takeWhile_run, dropWhile_run
      by (apply padded_no_colon || reflexivity).
    unfold m, n. rewrite 2 readNumber_padded. f_equal.
    rewrite N.mul_comm. symmetry. apply N.div_mod. discriminate.
  - repeat rewrite length_app. simpl. lia.
  - repeat rewrite length_app. simpl length. unfold m.
    rewrite padStart_length. split.
    + intros Hs.
      assert (H : (seconds / 60 < 100)%N)
        by (apply N.Div0.div_lt_upper_bound; lia).
      pose proof (toString_width _ H). lia.
    + intros Hl.
      assert (H : (seconds / 60 < 100)%N) by (apply toString_narrow; lia).
      pose proof (N.div_mod seconds 60 ltac:(discriminate)).
      pose proof (N.mod_lt seconds 60 ltac:(discriminate)). lia.
Qed.

Lemma formatTime_read_back_witness :
  (754 <= maxSafeInteger)%N /\
  formatTime 754 = lit "12:34" /\
  readTime (lit "12:34") = Some 754%N /\
  (754 < 6000)%N /\ length (formatTime 754) = 5.
Proof.
  assert (Hsafe : (754 <= maxSafeInteger)%N) by (vm_compute; discriminate).
  destruct (formatTime_read_back 754 Hsafe) as [Hread [_ [Hshort Hlong]]].
  assert (Hs : (754 < 6000)%N) by reflexivity.
  split; [exact Hsafe | split; [reflexivity|]].
  split; [exact Hread|]. split; [exact (Hlong (Hshort Hs)) | exact (Hshort Hs)].
Defined.
End Clock.

Section Network.

(** X16. With the two wrappers on a network, [formatWithAI] is fulfilled
    with the unwrapped answer when the network gives one, a blank one
    too, and with the local formatting otherwise. [generateTitle] is
    fulfilled with the sanitised unwrapped answer when there is one that
    is not blank, with the fallback title otherwise, and with the empty
    title for a blank text, whatever the network does. *)
Theorem answers_to_results (toLowerCase : jsstring -> jsstring)
  (network : remote_call -> fetched) (text : jsstring) :
  (exists local,
      formatAudioPenStyle toLowerCase text = ret local /\
      settle (remoteOver network) (formatWithAI toLowerCase text)
      = Fulfilled
          match network (FormatWithDeepseek text) with
          | Answer true (Some content) => stripFences (trim content)
          | _ => local
          end) /\
  settle (remoteOver network) (generateTitle text)
  = Fulfilled
      (if falsy (trim text) then []
       else match network (GenerateTitleWithDeepseek (trim text)) with
            | Answer true (Some content) =>
                if falsy (trim content) then fallbackTitle (trim text)
                else sanitizeTitle (stripFences (trim content))
            | _ => fallbackTitle (trim text)
            end).
Proof.
  split.
  - destruct (formatAudioPenStyle_returns toLowerCase text) as [local Hl].
    exists local. split; [exact Hl|].
    unfold formatWithAI, formatWithAI_over, formatWithDeepseek, request.
    rewrite Hl. cbn [bind tryCatch settle remoteOver].
    destruct (network (FormatWithDeepseek text)) as [|[|] [content|]];
      reflexivity.
  - unfold generateTitle. cbv zeta. destruct (falsy (trim text));
      [reflexivity|].
    unfold generateTitleWithDeepseek, request.
    cbn [bind tryCatch settle remoteOver].
    destruct (network (GenerateTitleWithDeepseek (trim text)))
      as [|[|] [content|]]; try reflexivity.
    unfold generateTitleWithDeepseek_outcome. cbv zeta.
    destruct (falsy (trim content)); reflexivity.
Qed.
End Network.
